(** * owncast-commands: a model of the chat bot and its helpers

    The development follows the Go sources file by file:

    - [Go]          the few values of the Go runtime and standard library the
                    program manipulates (errors, instants, durations);
    - [Wire]        the [Message] struct and its JSON form;
    - [Chat]        [Config.validate], [NewChatService], [Close] and the two
                    loops [listenRead] / [listenWrite];
    - [Placeholder] the cached server status and the [Uptime] placeholder;
    - [Commands]    [ReadCommandsFromFile];
    - [Regexp]      the command pattern and [parseGroupsRegexp];
    - [Template]    [Command.Parse];
    - [Main]        [processMessageCommand] and [main].

    Code that touches the outside world (socket, dialer, logger, HTTP client,
    file system, clock) is written against an explicit trace of events, the
    answers of the outside world being supplied as arguments. *)

From Stdlib Require Import String Ascii List ZArith Bool Lia.
Import ListNotations.

Local Open Scope string_scope.
Local Open Scope Z_scope.

(* ===================================================================== *)
(** * Go runtime values *)
(* ===================================================================== *)

Module Go.

(** Values of Go's [error] interface met in the program.  [errorString] is
    [errors.New] (and [fmt.Errorf] without verbs, and any foreign error known
    by its text only); [CloseError] is gorilla's [*websocket.CloseError];
    [Errorf] is [fmt.Errorf(format, cause)] with one [%v] verb. *)
Inductive error : Type :=
| errorString (s : string)
| CloseError (Code : Z) (Text : string)
| Errorf (format : string) (cause : error).

(** [websocket.CloseNormalClosure] *)
Definition CloseNormalClosure : Z := 1000.

(** The type assertion of [err] to gorilla's close error: its code when
    [err] is one. *)
Definition asCloseError (err : error) : option Z :=
  match err with
  | CloseError code _ => Some code
  | _ => None
  end.

(** ** Decimal rendering *)

Definition digit (d : Z) : ascii := ascii_of_nat (48 + Z.to_nat d).

(** The last [width] decimal digits of [n], zero padded. *)
Fixpoint padded (width : nat) (n : Z) : string :=
  match width with
  | O => EmptyString
  | S w => padded w (n / 10) ++ String (digit (n mod 10)) EmptyString
  end.

Fixpoint digits_fuel (fuel : nat) (n : Z) : string :=
  match fuel with
  | O => EmptyString
  | S f => if n <? 10 then String (digit n) EmptyString
           else digits_fuel f (n / 10) ++ String (digit (n mod 10)) EmptyString
  end.

(** Decimal text of a natural number below 2^64 (twenty digits suffice). *)
Definition itoa (n : Z) : string := digits_fuel 20 n.

(** Drops the trailing ['0'] characters of a digit string. *)
Fixpoint trim_zeros (s : string) : string :=
  match s with
  | EmptyString => EmptyString
  | String c rest =>
      match trim_zeros rest with
      | EmptyString => if Ascii.eqb c "0"%char then EmptyString else String c EmptyString
      | r => String c r
      end
  end.

(** ** [time.Time] and [time.Duration] *)

(** An instant, as [time.Time] keeps it once the monotonic reading is
    dropped: seconds since January 1 of year 1, 00:00:00 UTC, nanoseconds
    within the second, and the zone offset in seconds east of UTC. *)
Record Time : Type := mkTime {
  sec : Z;
  nsec : Z;
  offset : Z
}.

(** The zero value [time.Time{}]. *)
Definition zeroTime : Time := mkTime 0 0 0.

(** [time.Duration]: a signed 64-bit count of nanoseconds. *)
Definition Duration : Type := Z.

Definition Nanosecond : Duration := 1.
Definition Microsecond : Duration := 1000.
Definition Millisecond : Duration := 1000000.
Definition Second : Duration := 1000000000.

Definition minDuration : Duration := - 2 ^ 63.
Definition maxDuration : Duration := 2 ^ 63 - 1.

(** [t.Sub(u)]: the difference in nanoseconds, saturated to the range of
    [Duration]. *)
Definition Sub (t u : Time) : Duration :=
  let d := (sec t - sec u) * Second + (nsec t - nsec u) in
  if d <? minDuration then minDuration
  else if maxDuration <? d then maxDuration
  else d.

(** [d.Truncate(m)]: rounds toward zero to a multiple of [m]; Go's [%] is
    the truncated remainder, [Z.rem]. *)
Definition Truncate (d m : Duration) : Duration :=
  if m <=? 0 then d else d - Z.rem d m.

(** [fmtFrac]: the fraction [v mod 10^prec] printed after a dot without its
    trailing zeros, nothing at all when it is zero. *)
Definition fmtFrac (v : Z) (prec : nat) : string :=
  match trim_zeros (padded prec v) with
  | EmptyString => EmptyString
  | f => "." ++ f
  end.

(** [d.String()]: ["72h3m0.5s"]; leading zero units are omitted, durations
    under a second use a smaller unit, zero is ["0s"]. *)
Definition Duration_String (d : Duration) : string :=
  let u := Z.abs d in
  let sign := if d <? 0 then "-" else "" in
  if u =? 0 then "0s"
  else if u <? Microsecond then sign ++ itoa u ++ "ns"
  else if u <? Millisecond then
    sign ++ itoa (u / 1000) ++ fmtFrac u 3
         ++ String (ascii_of_nat 194) (String (ascii_of_nat 181) "s")
  else if u <? Second then
    sign ++ itoa (u / 1000000) ++ fmtFrac u 6 ++ "ms"
  else
    let frac := fmtFrac u 9 in
    let s := u / Second in
    let m := s / 60 in
    let h := m / 60 in
    sign
      ++ (if 0 <? h then itoa h ++ "h" else "")
      ++ (if 0 <? m then itoa (m mod 60) ++ "m" else "")
      ++ itoa (s mod 60) ++ frac ++ "s".

(** ** RFC 3339 text of an instant *)

(** Year, month and day of the proleptic Gregorian calendar for a count of
    days since January 1 of year 1. *)
Definition civil (days : Z) : Z * Z * Z :=
  let z := days + 306 in
  let era := z / 146097 in
  let doe := z - era * 146097 in
  let yoe := (doe - doe / 1460 + doe / 36524 - doe / 146096) / 365 in
  let doy := doe - (365 * yoe + yoe / 4 - yoe / 100) in
  let mp := (5 * doy + 2) / 153 in
  let d := doy - (153 * mp + 2) / 5 + 1 in
  let m := if mp <? 10 then mp + 3 else mp - 9 in
  let y := yoe + era * 400 + (if m <=? 2 then 1 else 0) in
  (y, m, d).

Definition Year (t : Time) : Z :=
  let '(y, _, _) := civil ((sec t + offset t) / 86400) in y.

(** [t.Format(time.RFC3339Nano)] for a year of four digits.  The zone is
    [Z] for the offset 0 and otherwise the offset in whole minutes, the
    division truncating toward zero as Go's does. *)
Definition formatRFC3339Nano (t : Time) : string :=
  let local := sec t + offset t in
  let '(y, m, d) := civil (local / 86400) in
  let sod := local mod 86400 in
  let zone := Z.quot (offset t) 60 in
  padded 4 y ++ "-" ++ padded 2 m ++ "-" ++ padded 2 d ++ "T"
    ++ padded 2 (sod / 3600) ++ ":" ++ padded 2 (sod / 60 mod 60) ++ ":"
    ++ padded 2 (sod mod 60) ++ fmtFrac (nsec t) 9
    ++ (if offset t =? 0 then "Z"
        else (if zone <? 0 then "-" else "+")
               ++ padded 2 (Z.abs zone / 60) ++ ":" ++ padded 2 (Z.abs zone mod 60)).

(** [t.MarshalJSON()]: the RFC 3339 text, an error when the year is outside
    0..9999 or the hour of the zone outside 0..23. *)
Definition Time_MarshalJSON (t : Time) : string + error :=
  let y := Year t in
  if (y <? 0) || (10000 <=? y)
  then inr (errorString "Time.MarshalJSON: year outside of range [0,9999]")
  else if negb (offset t =? 0) && (24 <=? Z.abs (Z.quot (offset t) 60) / 60)
  then inr (errorString "Time.MarshalJSON: timezone hour outside of range [0,23]")
  else inl (formatRFC3339Nano t).

End Go.

(* ===================================================================== *)
(** * The chat message and its JSON form *)
(* ===================================================================== *)

Module Wire.
Import Go.

Definition CHAT : string := "CHAT".
Definition PING : string := "PING".
Definition PONG : string := "PONG".
Definition SYSTEM : string := "SYSTEM".
Definition NAME_CHANGE : string := "NAME_CHANGE".
Definition requestOrigin : string := "http://localhost".

(** [Message] describes an Owncast chat message. *)
Record Message : Type := mkMessage {
  Author : string;      (* json:"author,omitempty" *)
  Body : string;        (* json:"body,omitempty" *)
  ID : string;          (* json:"id,omitempty" *)
  Type_ : string;       (* Type, json:"type" *)
  Visible : bool;       (* json:"visible,omitempty" *)
  Timestamp : Time      (* json:"timestamp,omitempty" *)
}.

(** The zero value [Message{}], and the literal [Message{Type: t}]. *)
Definition zeroMessage : Message := mkMessage "" "" "" "" false zeroTime.
Definition ofType (t : string) : Message := mkMessage "" "" "" t false zeroTime.

(** JSON values as far as the program's structs need them.  An object keeps
    its members in the order they are written. *)
Inductive JValue : Type :=
| JNull
| JBool (b : bool)
| JNumber (n : Z)
| JString (s : string).

Definition JObject : Type := list (string * JValue).

(** ** Encoding, after [encoding/json]

    A struct is written field by field in declaration order.  The option
    [omitempty] drops a field whose value is empty, where empty means
    [false], [0], a nil pointer or interface, or an array, slice, map or
    string of length zero.  A struct value such as [time.Time] is never
    empty, so the option has no effect on [Timestamp].

    The model stops at JSON values: strings are the valid UTF-8 texts the
    encoder writes and the decoder yields, and the escaping of the text form
    is not represented. *)

Definition string_field (key : string) (omitempty : bool) (s : string) : JObject :=
  if omitempty && (s =? "")%string then [] else [(key, JString s)].

Definition bool_field (key : string) (omitempty : bool) (b : bool) : JObject :=
  if omitempty && negb b then [] else [(key, JBool b)].

Definition time_field (key : string) (omitempty : bool) (t : Time)
  : JObject + error :=
  match Time_MarshalJSON t with
  | inl text => inl [(key, JString text)]
  | inr e => inr e
  end.

(** [json.Marshal(m)] for a [Message]. *)
Definition Marshal (m : Message) : JObject + error :=
  match time_field "timestamp" true (Timestamp m) with
  | inr e => inr e
  | inl ts =>
      inl (string_field "author" true (Author m)
           ++ string_field "body" true (Body m)
           ++ string_field "id" true (ID m)
           ++ string_field "type" false (Type_ m)
           ++ bool_field "visible" true (Visible m)
           ++ ts)%list
  end.

(** The member names of an object. *)
Definition keys (o : JObject) : list string := map fst o.

Definition has_key (k : string) (o : JObject) : bool :=
  existsb (String.eqb k) (keys o).

(** The optional members of the wire form. *)
Definition optional_keys : list string :=
  ["author"; "body"; "id"; "visible"; "timestamp"].

(** ** Decoding

    [json.Unmarshal] stores each member it recognises into the matching
    field of the destination and leaves the other fields as they are; [null]
    is a no-op and a value of the wrong kind is an error.  A member name
    matches a field when the two are equal under case folding.  The text of
    an instant is read back by [parseTime], the parser of RFC 3339, which is
    taken as a parameter. *)

Definition byte_is (n : nat) (c : ascii) : bool := (nat_of_ascii c =? n)%nat.

Definition upper (c : ascii) : ascii :=
  if ((97 <=? nat_of_ascii c) && (nat_of_ascii c <=? 122))%nat
  then ascii_of_nat (nat_of_ascii c - 32)
  else c.

(** [foldName], as far as it bears on names made of ASCII letters: the
    letters a to z become A to Z, and so do the two other characters that
    fold to a letter, the long s U+017F (bytes C5 BF) to S and the Kelvin
    sign U+212A (bytes E2 84 AA) to K.  Every other character folds to a
    character outside ASCII and is left as it is here. *)
Fixpoint foldName (s : string) : string :=
  match s with
  | EmptyString => EmptyString
  | String c rest =>
      match rest with
      | String d rest1 =>
          if byte_is 197 c && byte_is 191 d then String "S" (foldName rest1)
          else
            match rest1 with
            | String e rest2 =>
                if byte_is 226 c && byte_is 132 d && byte_is 170 e
                then String "K" (foldName rest2)
                else String (upper c) (foldName rest)
            | EmptyString => String (upper c) (foldName rest)
            end
      | EmptyString => String (upper c) (foldName rest)
      end
  end.

(** [utf8.ValidString]: the text is a sequence of well-formed UTF-8
    encodings (no overlong form, no surrogate, nothing above U+10FFFF). *)
Definition between (lo hi : nat) (c : ascii) : bool :=
  ((lo <=? nat_of_ascii c) && (nat_of_ascii c <=? hi))%nat.

Definition continuation : ascii -> bool := between 128 191.

Definition three_bytes (a b : ascii) : bool :=
  (byte_is 224 a && between 160 191 b)
  || ((between 225 236 a || between 238 239 a) && continuation b)
  || (byte_is 237 a && between 128 159 b).

Definition four_bytes (a b : ascii) : bool :=
  (byte_is 240 a && between 144 191 b)
  || (between 241 243 a && continuation b)
  || (byte_is 244 a && between 128 143 b).

Fixpoint valid_utf8 (s : string) : bool :=
  match s with
  | EmptyString => true
  | String a r1 =>
      if between 0 127 a then valid_utf8 r1
      else
        match r1 with
        | EmptyString => false
        | String b r2 =>
            if between 194 223 a then continuation b && valid_utf8 r2
            else
              match r2 with
              | EmptyString => false
              | String c r3 =>
                  if three_bytes a b then continuation c && valid_utf8 r3
                  else
                    match r3 with
                    | EmptyString => false
                    | String d r4 =>
                        four_bytes a b && continuation c && continuation d
                        && valid_utf8 r4
                    end
              end
        end
  end.

(** The four texts of a message are valid UTF-8.  For such a message the
    encoder writes the texts as they are; in any other it would put U+FFFD
    in the place of each offending byte. *)
Definition valid_texts (m : Message) : bool :=
  valid_utf8 (Author m) && valid_utf8 (Body m) && valid_utf8 (ID m)
  && valid_utf8 (Type_ m).

Section Decode.

Variable parseTime : string -> option Time.

Definition set_member (m : Message) (kv : string * JValue) : option Message :=
  let '(k, v) := kv in
  match v with
  | JNull => Some m
  | _ =>
    if (foldName k =? "AUTHOR")%string then
      match v with
      | JString s => Some (mkMessage s (Body m) (ID m) (Type_ m) (Visible m) (Timestamp m))
      | _ => None
      end
    else if (foldName k =? "BODY")%string then
      match v with
      | JString s => Some (mkMessage (Author m) s (ID m) (Type_ m) (Visible m) (Timestamp m))
      | _ => None
      end
    else if (foldName k =? "ID")%string then
      match v with
      | JString s => Some (mkMessage (Author m) (Body m) s (Type_ m) (Visible m) (Timestamp m))
      | _ => None
      end
    else if (foldName k =? "TYPE")%string then
      match v with
      | JString s => Some (mkMessage (Author m) (Body m) (ID m) s (Visible m) (Timestamp m))
      | _ => None
      end
    else if (foldName k =? "VISIBLE")%string then
      match v with
      | JBool b => Some (mkMessage (Author m) (Body m) (ID m) (Type_ m) b (Timestamp m))
      | _ => None
      end
    else if (foldName k =? "TIMESTAMP")%string then
      match v with
      | JString s =>
          match parseTime s with
          | Some t => Some (mkMessage (Author m) (Body m) (ID m) (Type_ m) (Visible m) t)
          | None => None
          end
      | _ => None
      end
    else Some m
  end.

(** [json.Unmarshal(o, &m)]: the members are stored in order. *)
Fixpoint Unmarshal (o : JObject) (m : Message) : option Message :=
  match o with
  | [] => Some m
  | kv :: rest =>
      match set_member m kv with
      | Some m' => Unmarshal rest m'
      | None => None
      end
  end.

(** Decoding into a fresh [var message Message]. *)
Definition decode (o : JObject) : option Message := Unmarshal o zeroMessage.

End Decode.

End Wire.

(* ===================================================================== *)
(** * The chat service *)
(* ===================================================================== *)

Module Chat.
Import Go Wire.

(** [ProcessMessageFunc] gets a received message and returns the answer,
    which can be nil. *)
Definition ProcessMessageFunc : Type := Message -> option Message.

(** [url.URL], as far as the program fills it. *)
Record URL : Type := mkURL {
  URL_Scheme : string;
  URL_Host : string;
  URL_Path : string
}.

(** ** Log calls (logrus) *)

Inductive Level : Type :=
| PanicLevel | FatalLevel | ErrorLevel | WarnLevel | InfoLevel | DebugLevel | TraceLevel.

(** An argument handed to a log call, before it is rendered. *)
Inductive Arg : Type :=
| ArgString (s : string)
| ArgMessage (m : Message)
| ArgError (e : error)
| ArgURL (u : URL).

Inductive LogText : Type :=
| Printf (format : string) (args : list Arg)
| Println (args : list Arg).

(** One call to the logger: its level, the fields attached with
    [WithField], and the text.  The traces below record the calls. *)
Record Entry : Type := mkEntry {
  level : Level;
  fields : list (string * string);
  text : LogText
}.

(** The levels in the order of logrus, most severe first. *)
Definition rank (l : Level) : nat :=
  match l with
  | PanicLevel => 0 | FatalLevel => 1 | ErrorLevel => 2 | WarnLevel => 3
  | InfoLevel => 4 | DebugLevel => 5 | TraceLevel => 6
  end%nat.

(** The level [init] of the main file configures: debug, unless the
    environment variable LOG_LEVEL parses to a level. *)
Definition init (LOG_LEVEL : option Level) : Level :=
  match LOG_LEVEL with
  | Some l => l
  | None => DebugLevel
  end.

(** Whether the logger, configured at [l], writes an entry out. *)
Definition enabled (l : Level) (e : Entry) : bool :=
  (rank (level e) <=? rank l)%nat.

(** ** Observable actions *)

(** [websocket.CloseMessage] *)
Definition CloseMessage : Z := 8.

(** [websocket.FormatCloseMessage]: the close code on two bytes, then the
    text; empty for code 1005 (no status received). *)
Definition FormatCloseMessage (closeCode : Z) (reason : string) : string :=
  if closeCode =? 1005 then ""
  else String (ascii_of_nat (Z.to_nat (closeCode / 256)))
         (String (ascii_of_nat (Z.to_nat (closeCode mod 256))) reason).

#[local] Set Warnings "-register-all".
Inductive Event : Type :=
| Dial (u : URL) (header : list (string * list string))
| WriteMessage (messageType : Z) (data : string)
| WriteJSON (m : Message)
| PingCh (m : Message)        (* c.pingCh <- &message *)
| ChatCh (m : Message)        (* c.chatCh <- &message *)
| CloseDoneCh                 (* close(c.doneCh) *)
| Select                      (* blocks in a select statement *)
| JobFunc (m : Message)       (* c.jobFunc(m) *)
| Panic                       (* call of a nil function value *)
| Log (e : Entry)
| Go (body : list Event).     (* go func() { body }() *)

(** A computation yields a value and the actions it performed, in order. *)
Definition IO (A : Type) : Type := A * list Event.

Definition ret {A : Type} (a : A) : IO A := (a, []).

Definition bind {A B : Type} (c : IO A) (k : A -> IO B) : IO B :=
  let '(a, t1) := c in
  let '(b, t2) := k a in
  (b, (t1 ++ t2)%list).

Definition emit (e : Event) : IO unit := (tt, [e]).

Definition trace {A : Type} (c : IO A) : list Event := snd c.
Definition value {A : Type} (c : IO A) : A := fst c.

Declare Scope io_scope.
Delimit Scope io_scope with io.
Notation "x <- c ;; k" := (bind c (fun x => k))
  (at level 61, c at next level, right associativity) : io_scope.
Notation "c ;; k" := (bind c (fun _ => k))
  (at level 61, right associativity) : io_scope.
Local Open Scope io_scope.

Definition logf (l : Level) (fs : list (string * string)) (format : string)
    (args : list Arg) : IO unit :=
  emit (Log (mkEntry l fs (Printf format args))).

Definition logln (l : Level) (fs : list (string * string)) (args : list Arg)
    : IO unit :=
  emit (Log (mkEntry l fs (Println args))).

(** ** Types of the service *)

(** An unbuffered channel.  It holds nothing between a send and the
    matching receive; the hand-over itself is an [Event]. *)
Inductive Chan (A : Type) : Type := make_chan.
Arguments make_chan {A}.

Section Service.

(** The connection handle [*websocket.Conn]. *)
Variable Conn : Type.

(** [ChatService] performs actions on the Owncast chat. *)
Record ChatService : Type := mkChatService {
  ws : Conn;
  pingCh : Chan Message;
  chatCh : Chan Message;
  jobFunc : option ProcessMessageFunc;
  doneCh : Chan bool
}.

(** [Config] is what is required to initiate a websocket connection. *)
Record Config : Type := mkConfig {
  Scheme : string;
  Host : string;
  Path : string;
  CommandExecutorFunc : option ProcessMessageFunc
}.

(** ** Connecting *)

(** [url.Parse], from the standard library. *)
Variable url_Parse : string -> URL + error.

(** The answer of [websocket.DefaultDialer.Dial] for a target. *)
Variable dialer : URL -> Conn + error.

Definition validate (c : Config) : option error :=
  if (Scheme c =? "")%string then
    Some (errorString "missing websocket scheme")
  else if (Host c =? "")%string then
    Some (errorString "missing websocket host")
  else
    match CommandExecutorFunc c with
    | None => Some (errorString "missing command executor function")
    | Some _ =>
        match url_Parse (Scheme c ++ "://" ++ Host c ++ Path c) with
        | inr err => Some (Errorf "invalid websocket url: %v" err)
        | inl _ => None
        end
    end.

(** [NewChatService] creates a new websocket listener.  The dialer is
    called with [u.String()] and the fixed origin header. *)
Definition NewChatService (config : Config)
  : IO (option ChatService * option error) :=
  match validate config with
  | Some err => ret (None, Some err)
  | None =>
      let u := mkURL (Scheme config) (Host config) (Path config) in
      logf DebugLevel [] "connecting to %s" [ArgURL u] ;;
      emit (Dial u [("Origin", [requestOrigin])]) ;;
      match dialer u with
      | inr err => ret (None, Some err)
      | inl c =>
          ret (Some (mkChatService c make_chan make_chan
                       (CommandExecutorFunc config) make_chan),
               None)
      end
  end.

(** ** Closing *)

(** [ErrCloseConnectionTimeout] *)
Definition ErrCloseConnectionTimeout : error :=
  errorString
    "ChatService.Close(): timeout exceeded while closing websocket connection".

(** What a call that may wait on channels comes to. *)
Inductive Outcome (A : Type) : Type :=
| Returns (a : A)
| Blocked.                    (* no case of the select ever becomes ready *)
Arguments Returns {A} a.
Arguments Blocked {A}.

Inductive Case : Type := CaseDone | CaseCtx.

(** The statement [select { case <-c.doneCh: ...; case <-ctx.Done(): ... }]
    entered at instant [now].  [done] is the instant at which the read loop
    closes [doneCh] and [ctx] the instant at which the context is done,
    [None] standing for never.  A channel closed in the past is ready at
    once.  The case that is ready first is taken; when both become ready
    together the runtime picks one, here by [pick]. *)
Definition select_done_ctx (now : Z) (done ctx : option Z) (pick : bool)
  : Outcome Case :=
  match done, ctx with
  | None, None => Blocked
  | Some _, None => Returns CaseDone
  | None, Some _ => Returns CaseCtx
  | Some d, Some x =>
      let d' := Z.max d now in
      let x' := Z.max x now in
      if d' <? x' then Returns CaseDone
      else if x' <? d' then Returns CaseCtx
      else Returns (if pick then CaseDone else CaseCtx)
  end.

(** [Close] closes the websocket connection: it sends a close message and
    then waits, bounded by the context, for the server to close the
    connection.  [written] is the answer of [c.ws.WriteMessage]. *)
Definition Close (c : ChatService) (written : option error)
    (now : Z) (done ctx : option Z) (pick : bool)
  : IO (Outcome (option error)) :=
  emit (WriteMessage CloseMessage (FormatCloseMessage CloseNormalClosure "")) ;;
  match written with
  | Some err => ret (Returns (Some (Errorf "ChatService.Close(): %v" err)))
  | None =>
      emit Select ;;
      match select_done_ctx now done ctx pick with
      | Returns CaseDone => ret (Returns None)
      | Returns CaseCtx => ret (Returns (Some ErrCloseConnectionTimeout))
      | Blocked => ret Blocked
      end
  end.

(** ** The read loop *)

(** What one call [c.ws.ReadJSON(&message)] leaves behind: the decoded
    message, or an error together with whatever [message] holds then. *)
Inductive ReadResult : Type :=
| ReadOk (message : Message)
| ReadErr (message : Message) (err : error).

(** The test [!ok || v.Code != websocket.CloseNormalClosure]. *)
Definition unexpected (err : error) : bool :=
  match asCloseError err with
  | None => true
  | Some code => negb (code =? CloseNormalClosure)
  end.

(** The [switch message.Type] of [listenRead]. *)
Definition dispatch (message : Message) : IO unit :=
  if (Type_ message =? PING)%string then emit (PingCh message)
  else if (Type_ message =? CHAT)%string then emit (ChatCh message)
  else if (Type_ message =? SYSTEM)%string then ret tt
  else if (Type_ message =? NAME_CHANGE)%string then ret tt
  else logf WarnLevel [] "unknow message type received: %s" [ArgMessage message].

(** One iteration of the [for] of [listenRead]; [true] when the loop goes
    on. *)
Definition readStep (r : ReadResult) : IO bool :=
  match r with
  | ReadErr message err =>
      (if unexpected err
       then logln ErrorLevel [("body", Body message); ("type", Type_ message)]
                  [ArgError err]
       else ret tt) ;;
      ret false
  | ReadOk message =>
      logf DebugLevel [] "Received %s request" [ArgString (Type_ message)] ;;
      dispatch message ;;
      ret true
  end.

(** [listenRead] receives each chat message and dispatches it to the related
    channel.  [reads] are the results of the successive [ReadJSON] calls; at
    the end of the list the loop is waiting in [ReadJSON].  The deferred
    [close(c.doneCh)] runs when the function returns. *)
Fixpoint listenRead (reads : list ReadResult) : IO unit :=
  match reads with
  | [] => ret tt
  | r :: rest =>
      continue <- readStep r ;;
      if continue then listenRead rest else emit CloseDoneCh
  end.

(** ** The write loop *)

(** [send] writes the message as JSON on the connection. *)
Definition send (message : Message) (written : option error) : IO (option error) :=
  emit (WriteJSON message) ;; ret written.

(** The case a [select] of [listenWrite] takes. *)
Inductive Selected : Type :=
| FromDone                        (* case <-c.doneCh *)
| FromPing (m : Message)          (* case <-c.pingCh *)
| FromChat (input : Message).     (* case input := <-c.chatCh *)

(** One turn of the write loop: the case taken, and the answer of the
    connection to the [WriteJSON] the turn leads to, if it leads to one. *)
Record Turn : Type := mkTurn {
  selected : Selected;
  written : option error
}.

(** The body of the goroutine started for a chat message. *)
Definition chatTask (c : ChatService) (m : Message) (written : option error)
  : IO unit :=
  match jobFunc c with
  | None => emit Panic
  | Some f =>
      emit (JobFunc m) ;;
      match f m with
      | Some output =>
          err <- send output written ;;
          match err with
          | Some e =>
              logln ErrorLevel [("body", Body output); ("type", Type_ output)]
                    [ArgError e]
          | None => ret tt
          end
      | None => ret tt
      end
  end.

(** One iteration of the [for] of [listenWrite]; [true] when the loop goes
    on. *)
Definition writeStep (c : ChatService) (t : Turn) : IO bool :=
  match selected t with
  | FromDone => ret false
  | FromPing _ =>
      let m := ofType PONG in
      err <- send m (written t) ;;
      match err with
      | Some e =>
          logln ErrorLevel [("body", Body m); ("type", Type_ m)] [ArgError e] ;;
          ret true                                     (* continue *)
      | None => ret true
      end
  | FromChat input =>
      emit (Go (trace (chatTask c input (written t)))) ;;
      ret true
  end.

(** [listenWrite] listens to the channels and sends back the right message.
    At the end of [turns] the loop is waiting in its [select]. *)
Fixpoint listenWrite (c : ChatService) (turns : list Turn) : IO unit :=
  match turns with
  | [] => ret tt
  | t :: rest =>
      continue <- writeStep c t ;;
      if continue then listenWrite c rest else ret tt
  end.

(** ** The two loops together

    The channels are unbuffered and the read loop is their only sender, so
    the write loop takes the cases in the order the read loop hands the
    messages over, and [FromDone] once the read loop has returned. *)

Fixpoint handed (t : list Event) : list Selected :=
  match t with
  | [] => []
  | PingCh m :: t' => FromPing m :: handed t'
  | ChatCh m :: t' => FromChat m :: handed t'
  | CloseDoneCh :: t' => FromDone :: handed t'
  | _ :: t' => handed t'
  end.

(** Pairs the cases with the answers of the connection, in order; a turn
    beyond the given answers is a write that succeeds. *)
Fixpoint schedule (s : list Selected) (answers : list (option error))
  : list Turn :=
  match s with
  | [] => []
  | x :: s' => mkTurn x (hd None answers) :: schedule s' (tl answers)
  end.

(** The actions of the write loop in a session in which the connection
    delivers [reads]. *)
Definition session (c : ChatService) (reads : list ReadResult)
    (answers : list (option error)) : list Event :=
  trace (listenWrite c (schedule (handed (trace (listenRead reads))) answers)).

(** The messages decoded before the first failing read. *)
Fixpoint received (reads : list ReadResult) : list Message :=
  match reads with
  | ReadOk m :: rest => m :: received rest
  | _ => []
  end.

(** ** Reading traces *)

(** The messages written on the connection by the loop itself. *)
Fixpoint outbound (t : list Event) : list Message :=
  match t with
  | [] => []
  | WriteJSON m :: t' => m :: outbound t'
  | _ :: t' => outbound t'
  end.

(** The goroutines started. *)
Fixpoint spawned (t : list Event) : list (list Event) :=
  match t with
  | [] => []
  | Go body :: t' => body :: spawned t'
  | _ :: t' => spawned t'
  end.

(** The messages handed to a channel. *)
Fixpoint enqueued (t : list Event) : list Message :=
  match t with
  | [] => []
  | PingCh m :: t' => m :: enqueued t'
  | ChatCh m :: t' => m :: enqueued t'
  | _ :: t' => enqueued t'
  end.

(** The log calls. *)
Fixpoint logged (t : list Event) : list Entry :=
  match t with
  | [] => []
  | Log e :: t' => e :: logged t'
  | _ :: t' => logged t'
  end.

(** The lines written out by a logger configured at level [l]. *)
Definition written_out (l : Level) (t : list Event) : list Entry :=
  filter (enabled l) (logged t).


Definition is_level (l : Level) (e : Entry) : bool :=
  match l, level e with
  | PanicLevel, PanicLevel | FatalLevel, FatalLevel | ErrorLevel, ErrorLevel
  | WarnLevel, WarnLevel | InfoLevel, InfoLevel | DebugLevel, DebugLevel
  | TraceLevel, TraceLevel => true
  | _, _ => false
  end.

(** The number of calls to the dialer in a trace. *)
Definition is_dial (e : Event) : bool :=
  match e with Dial _ _ => true | _ => false end.

Definition dial_calls (t : list Event) : nat := length (filter is_dial t).

Definition is_select (e : Event) : bool :=
  match e with Select => true | _ => false end.

(** A trace without any write, hand-over or log call. *)
Definition silent (t : list Event) : Prop :=
  outbound t = [] /\ enqueued t = [] /\ logged t = [].

(** The two lines the read loop can log for a decoded message. *)
Definition received_line (m : Message) : Entry :=
  mkEntry DebugLevel [] (Printf "Received %s request" [ArgString (Type_ m)]).

Definition unknown_type_warning (m : Message) : Entry :=
  mkEntry WarnLevel [] (Printf "unknow message type received: %s" [ArgMessage m]).

(** The line logged, with the body and the type of [m], when reading or
    writing [m] on the connection fails with [e]. *)
Definition error_line (m : Message) (e : error) : Entry :=
  mkEntry ErrorLevel [("body", Body m); ("type", Type_ m)] (Println [ArgError e]).

Definition field_names (e : Entry) : list string := map fst (fields e).

Definition is_ping (m : Message) : bool := (Type_ m =? PING)%string.
Definition is_chat (m : Message) : bool := (Type_ m =? CHAT)%string.

(** The four things [validate] checks, what it means for each to be
    missing or invalid, and the error that reports it. *)
Inductive Field : Type :=
| FieldScheme | FieldHost | FieldExecutor | FieldURL.

Definition invalid (config : Config) (f : Field) : Prop :=
  match f with
  | FieldScheme => Scheme config = ""
  | FieldHost => Host config = ""
  | FieldExecutor => CommandExecutorFunc config = None
  | FieldURL =>
      exists cause,
        url_Parse (Scheme config ++ "://" ++ Host config ++ Path config)
        = inr cause
  end.

Definition ConfigError (f : Field) (err : error) : Prop :=
  match f with
  | FieldScheme => err = errorString "missing websocket scheme"
  | FieldHost => err = errorString "missing websocket host"
  | FieldExecutor => err = errorString "missing command executor function"
  | FieldURL => exists cause, err = Errorf "invalid websocket url: %v" cause
  end.

End Service.

Arguments Returns {A} a.
Arguments Blocked {A}.

End Chat.

(* ===================================================================== *)
(** * Placeholders: the cached server status and the uptime *)
(* ===================================================================== *)

Module Placeholder.
Import Go.

Record ServerStatus : Type := mkServerStatus {
  Online : bool;
  ViewerCount : Z;
  OverallMaxViewerCount : Z;
  SessionMaxViewerCount : Z;
  LastConnectTime : Time;
  LastDisconnectTime : Time;
  VersionNumber : string
}.

(** [ServerURL], the Owncast instance URL (a constant of the main file). *)
Definition ServerURL : string := "https://stream.skynewz.dev".

(** The answer of [http.DefaultClient.Get]: an error, or a response with
    its body. *)
Inductive Response : Type :=
| GetFailed (err : error)
| GetBody (content : string).

(** The state the placeholder code works on: the package variable
    [serverStatus] (the singleton, [None] for nil), the requests sent and the
    response bodies closed so far, and the errors passed to [log.Errorln]. *)
Record World : Type := mkWorld {
  serverStatus : option ServerStatus;
  requested : list string;
  closed : nat;
  errorlns : list error
}.

(** The four ways the code changes the world. *)
Definition sent (url : string) (w : World) : World :=
  mkWorld (serverStatus w) (requested w ++ [url])%list (closed w) (errorlns w).

Definition body_closed (w : World) : World :=
  mkWorld (serverStatus w) (requested w) (S (closed w)) (errorlns w).

Definition stored (ss : ServerStatus) (w : World) : World :=
  mkWorld (Some ss) (requested w) (closed w) (errorlns w).

Definition Errorln (err : error) (w : World) : World :=
  mkWorld (serverStatus w) (requested w) (closed w) (errorlns w ++ [err])%list.

Section Lookup.

(** The answer of the network to the [k]-th request (counting from 0). *)
Variable network : nat -> Response.

(** [json.NewDecoder(body).Decode(&ss)] for a [ServerStatus]. *)
Variable Decode : string -> ServerStatus + error.

(** [getServerStatus] discovers when a server is broadcasting, the number of
    active viewers and other information.  The deferred [resp.Body.Close()]
    runs on both ways out once there is a response. *)
Definition getServerStatus (w : World) : (ServerStatus + error) * World :=
  match serverStatus w with
  | Some ss => (inl ss, w)
  | None =>
      let w1 := sent (ServerURL ++ "/api/status") w in
      match network (length (requested w)) with
      | GetFailed err => (inr err, w1)
      | GetBody content =>
          match Decode content with
          | inr err => (inr err, body_closed w1)
          | inl ss => (inl ss, body_closed (stored ss w1))
          end
      end
  end.

(** [Uptime]; [now] is the reading of [time.Now()].  The status decoded from
    JSON carries no monotonic reading, so [Sub] works on the wall clock. *)
Definition Uptime (now : Time) (w : World) : string * World :=
  match getServerStatus w with
  | (inr err, w') => ("", Errorln err w')
  | (inl ss, w') =>
      let diff := Sub now (LastConnectTime ss) in
      (Duration_String (Truncate diff Second), w')
  end.

(** A sequence of uses of the two functions. *)
Inductive Call : Type :=
| CallGetServerStatus
| CallUptime (now : Time).

Inductive Result : Type :=
| Status (r : ServerStatus + error)
| Text (s : string).

Definition call (c : Call) (w : World) : Result * World :=
  match c with
  | CallGetServerStatus => let '(r, w') := getServerStatus w in (Status r, w')
  | CallUptime now => let '(s, w') := Uptime now w in (Text s, w')
  end.

Fixpoint run (cs : list Call) (w : World) : list Result * World :=
  match cs with
  | [] => ([], w)
  | c :: rest =>
      let '(r, w1) := call c w in
      let '(rs, w2) := run rest w1 in
      (r :: rs, w2)
  end.

(** What a call yields once [ss] is the cached status. *)
Definition cached_answer (ss : ServerStatus) (c : Call) : Result :=
  match c with
  | CallGetServerStatus => Status (inl ss)
  | CallUptime now =>
      Text (Duration_String (Truncate (Sub now (LastConnectTime ss)) Second))
  end.

End Lookup.

End Placeholder.

(* ===================================================================== *)
(** * Command definitions *)
(* ===================================================================== *)

Module Commands.
Import Go.

(** [Command] describes an Owncast stream command. *)
Record Command : Type := mkCommand {
  Trigger : string;
  Template : string
}.

(** The document of the commands file.  [File] is a slice of pointers: an
    entry is a command, or nil ([None]), which is what the decoder stores
    for an empty item of the list. *)
Record commandFile : Type := mkCommandFile {
  File : list (option Command)
}.

(** How a function ends: it returns, or the process exits ([os.Exit]) after
    a line has been printed by the standard logger. *)
Inductive Outcome (A : Type) : Type :=
| Returns (a : A)
| Exits (status : Z) (format : string) (arg : error).
Arguments Returns {A} a.
Arguments Exits {A} status format arg.

Section Read.

(** [ioutil.ReadFile] on the file system at hand. *)
Variable ReadFile : string -> string + error.

(** [yaml.Unmarshal(data, &f)] into a zero [commandFile]. *)
Variable Unmarshal : string -> commandFile + error.

(** [ReadCommandsFromFile] reads and parses the given YAML file.
    [log.Fatalf] prints and then calls [os.Exit(1)]. *)
Definition ReadCommandsFromFile (file : string)
  : Outcome (list (option Command) * option error) :=
  match ReadFile file with
  | inr err => Returns ([], Some err)
  | inl data =>
      match Unmarshal data with
      | inr err => Exits 1 "error: %v" err
      | inl f => Returns (File f, None)
      end
  end.

End Read.

End Commands.

(* ===================================================================== *)
(** * The command pattern *)
(* ===================================================================== *)

Module Regexp.
Import Go.

(** The part of the syntax of Go regular expressions the program uses.  A
    pattern between [^] and [$] (no flags) has to match the whole text. *)
Inductive Regexp : Type :=
| Literal (s : string)
| Class (lo hi : ascii)                   (* [lo-hi] *)
| Concat (r1 r2 : Regexp)
| Plus (r : Regexp)                       (* r+ *)
| Capture (name : string) (r : Regexp).   (* (?P<name>r) *)

Definition in_class (lo hi c : ascii) : bool :=
  ((nat_of_ascii lo <=? nat_of_ascii c) && (nat_of_ascii c <=? nat_of_ascii hi))%nat.

(** [Match r s caps]: the text [s] matches [r], the groups of [r] capturing
    the texts [caps], in the order of their opening parentheses. *)
Inductive Match : Regexp -> string -> list string -> Prop :=
| MatchLiteral (s : string) : Match (Literal s) s []
| MatchClass (lo hi c : ascii) :
    in_class lo hi c = true -> Match (Class lo hi) (String c EmptyString) []
| MatchConcat (r1 r2 : Regexp) (s1 s2 : string) (c1 c2 : list string) :
    Match r1 s1 c1 -> Match r2 s2 c2 ->
    Match (Concat r1 r2) (s1 ++ s2) (c1 ++ c2)%list
| MatchOnce (r : Regexp) (s : string) (c : list string) :
    Match r s c -> Match (Plus r) s c
| MatchMore (r : Regexp) (s1 s2 : string) (c1 c2 : list string) :
    Match r s1 c1 -> Match (Plus r) s2 c2 -> Match (Plus r) (s1 ++ s2) c2
| MatchCapture (name : string) (r : Regexp) (s : string) (c : list string) :
    Match r s c -> Match (Capture name r) s (s :: c).

(** The names of the groups, in order. *)
Fixpoint groups (r : Regexp) : list string :=
  match r with
  | Literal _ | Class _ _ => []
  | Concat r1 r2 => (groups r1 ++ groups r2)%list
  | Plus r' => groups r'
  | Capture name r' => name :: groups r'
  end.

(** [re.SubexpNames()]: the name at index 0 is the empty string, for the
    whole match. *)
Definition names (r : Regexp) : list string := "" :: groups r.

(** What the program uses of a compiled [*regexp.Regexp].
    [FindStringSubmatch] yields the whole match followed by the text of each
    group, nil ([[]]) when there is no match. *)
Record Compiled : Type := mkCompiled {
  MatchString : string -> bool;
  FindStringSubmatch : string -> list string;
  SubexpNames : list string
}.

(** The pattern of [commandRegexp], [^<p>(?P<command>![a-z]+)<\/p>$]. *)
Definition commandPattern : Regexp :=
  Concat (Literal "<p>")
    (Concat (Capture "command" (Concat (Literal "!") (Plus (Class "a" "z"))))
       (Literal "</p>")).

(** ** Running the command pattern *)

(** [s] without the prefix [p], if it starts with it. *)
Fixpoint strip (p s : string) : option string :=
  match p, s with
  | EmptyString, _ => Some s
  | String a p', String b s' => if Ascii.eqb a b then strip p' s' else None
  | String _ _, EmptyString => None
  end.

(** The longest prefix of [s] made of characters satisfying [f], and what
    follows it. *)
Fixpoint span (f : ascii -> bool) (s : string) : string * string :=
  match s with
  | EmptyString => (EmptyString, EmptyString)
  | String c rest =>
      if f c then let '(w, tail) := span f rest in (String c w, tail)
      else (EmptyString, s)
  end.

Definition lower (c : ascii) : bool := in_class "a" "z" c.

Definition find_command (v : string) : list string :=
  match strip "<p>!" v with
  | None => []
  | Some rest =>
      let '(w, tail) := span lower rest in
      if negb (w =? "")%string && (tail =? "</p>")%string
      then [v; String "!" w]
      else []
  end.

(** [commandRegexp], the compiled pattern. *)
Definition commandRegexp : Compiled :=
  mkCompiled
    (fun v => match find_command v with [] => false | _ => true end)
    find_command
    (names commandPattern).

(** ** [parseGroupsRegexp] *)

(** A [map[string]string]. *)
Definition Groups : Type := string -> option string.

Definition no_groups : Groups := fun _ => None.

(** [r[name] = value] *)
Definition set (name value : string) (r : Groups) : Groups :=
  fun k => if (k =? name)%string then Some value else r k.

(** How the function ends: with the map, or by the run-time panic of an
    index out of range. *)
Inductive Result : Type :=
| Done (r : Groups)
| IndexOutOfRange (index length : nat).

(** The [for i, name := range re.SubexpNames()] of [parseGroupsRegexp], from
    index [i] on. *)
Fixpoint collect (i : nat) (subexpNames match_ : list string) (r : Groups)
  : Result :=
  match subexpNames with
  | [] => Done r
  | name :: rest =>
      if ((0 <? i) && (i <=? length match_))%nat then
        match nth_error match_ i with
        | Some value => collect (S i) rest match_ (set name value r)
        | None => IndexOutOfRange i (length match_)
        end
      else collect (S i) rest match_ r
  end.

(** [parseGroupsRegexp] returns a map that contains the group keys and
    values from the given pattern. *)
Definition parseGroupsRegexp (re : Compiled) (v : string) : Result :=
  let match_ := FindStringSubmatch re v in
  collect 0 (SubexpNames re) match_ no_groups.

(** All characters of a text satisfy [f]. *)
Fixpoint all (f : ascii -> bool) (s : string) : bool :=
  match s with
  | EmptyString => true
  | String c rest => f c && all f rest
  end.

End Regexp.

(* ===================================================================== *)
(** * Further readings of traces and worlds *)
(* ===================================================================== *)

Module Observe.
Import Go Wire Chat Placeholder.

(** The number of times [doneCh] is closed in a trace. *)
Fixpoint done_closed (t : list Event) : nat :=
  match t with
  | [] => 0
  | CloseDoneCh :: t' => S (done_closed t')
  | _ :: t' => done_closed t'
  end.

(** Whether a trace holds the call of a nil function. *)
Fixpoint panics (t : list Event) : bool :=
  match t with
  | [] => false
  | Panic :: _ => true
  | _ :: t' => panics t'
  end.

(** The case taken is the one of [doneCh]. *)
Definition is_done (t : Turn) : bool :=
  match selected t with FromDone => true | _ => false end.

(** What the end of the read loop adds to its trace. *)
Definition closing (message : Message) (err : error) : list Event :=
  ((if unexpected err then [Log (error_line message err)] else [])
     ++ [CloseDoneCh])%list.

(** The request of [getServerStatus]. *)
Definition status_url : string := ServerURL ++ "/api/status".

Section Network.

Variable network : nat -> Response.
Variable Decode : string -> ServerStatus + error.

(** The [k]-th request gets no status: the request fails, or the body does
    not decode. *)
Definition no_status (k : nat) : Prop :=
  match network k with
  | GetFailed _ => True
  | GetBody content => exists err, Decode content = inr err
  end.

(** The number of responses among the answers to the [n] requests from the
    [k]-th on. *)
Fixpoint responses (k n : nat) : nat :=
  match n with
  | O => 0
  | S n' =>
      (match network k with GetBody _ => 1 | GetFailed _ => 0 end
       + responses (S k) n')%nat
  end.

End Network.

End Observe.

(* ===================================================================== *)
(** * Rendering a command, and the main file *)
(* ===================================================================== *)

Module Template.
Import Go Commands.

(** How [Command.Parse] ends: by the panic of [template.Must], or with its
    two results. *)
Inductive Parsed : Type :=
| Panics (e : error)
| Returns (r : string) (err : option error).

Section Parse.

(** A parsed template, [*template.Template]. *)
Variable Tpl : Type.

(** [template.New("").Funcs(...).Parse(text)] *)
Variable template_Parse : string -> Tpl + error.

(** [tpl.Execute(&content, nil)]: the text written, or an error. *)
Variable Execute : Tpl -> string + error.

(** [emoji.Sprint] *)
Variable emoji_Sprint : string -> string.

(** [Parse] parses the template of the command and replaces the
    placeholders with their respective result. *)
Definition Parse (c : Command) : Parsed :=
  match template_Parse (Template c) with
  | inr e => Panics e
  | inl tpl =>
      match Execute tpl with
      | inr err => Returns "" (Some err)
      | inl content => Returns (emoji_Sprint content) None
      end
  end.

End Parse.

End Template.

Module Main.
Import Go Wire Chat Commands Regexp Template Observe.
Local Open Scope io_scope.

(** [BotName], the author of the messages of the bot. *)
Definition BotName : string := "Bot".

(** What [processMessageCommand] does besides computing its result: log
    calls, and the call [command.Parse()]. *)
Inductive Step : Type :=
| Logged (e : Entry)
| Parsing (c : Command).

(** How it ends. *)
Inductive Answer : Type :=
| Answered (output : option Message)
| Panicked.

(** How the loop over the commands ends: with the first command that has
    the trigger, without any, or by dereferencing a nil entry. *)
Inductive Lookup : Type :=
| Found (command : Command)
| NotFound
| NilEntry.

(** The [for _, c := range commands] with its test [c.Trigger == v] and its
    [break]. *)
Fixpoint search (commands : list (option Command)) (v : string) : Lookup :=
  match commands with
  | [] => NotFound
  | None :: _ => NilEntry
  | Some c :: rest => if (Trigger c =? v)%string then Found c else search rest v
  end.

Section Process.

(** The package variable [commands]. *)
Variable commands : list (option Command).

(** What [command.Parse()] comes to when it is called. *)
Variable Parse : Command -> Parsed.

Definition lookup (v : string) : Lookup := search commands v.

(** [processMessageCommand] checks if the given message is a command and
    performs the associated action. *)
Definition processMessageCommand (input : Message) : Answer * list Step :=
  let received :=
    Logged (mkEntry TraceLevel [("id", ID input)]
              (Printf "Received message %s" [ArgString (Body input)])) in
  if negb (MatchString commandRegexp (Body input)) then
    (Answered None,
     [received;
      Logged (mkEntry TraceLevel []
                (Printf "message %q is not a command: %q"
                   [ArgString (ID input); ArgString (Body input)]))])
  else
    match parseGroupsRegexp commandRegexp (Body input) with
    | IndexOutOfRange _ _ => (Panicked, [received])
    | Done res =>
        match res "command" with
        | None =>
            (Answered None,
             [received;
              Logged (mkEntry ErrorLevel []
                        (Printf "command not found in message %q. It should do"
                           [ArgString (Body input)]))])
        | Some v =>
            match lookup v with
            | NilEntry => (Panicked, [received])
            | NotFound =>
                (Answered None,
                 [received;
                  Logged (mkEntry TraceLevel []
                            (Printf "%q: command not found" [ArgString v]))])
            | Found command =>
                let running :=
                  Logged (mkEntry DebugLevel []
                            (Printf "running command %q" [ArgString v])) in
                match Parse command with
                | Panics _ => (Panicked, [received; running; Parsing command])
                | Returns _ (Some err) =>
                    (Answered None,
                     [received; running; Parsing command;
                      Logged (mkEntry ErrorLevel [] (Println [ArgError err]))])
                | Returns r None =>
                    (Answered
                       (Some (mkMessage BotName ("@" ++ Author input ++ " " ++ r)
                                "" CHAT false zeroTime)),
                     [received; running; Parsing command])
                end
            end
        end
    end.

End Process.

(** The calls of [Parse] among the steps. *)
Fixpoint parsings (t : list Step) : list Command :=
  match t with
  | [] => []
  | Parsing c :: t' => c :: parsings t'
  | _ :: t' => parsings t'
  end.

(** The entries logged among the steps. *)
Fixpoint entries (t : list Step) : list Entry :=
  match t with
  | [] => []
  | Logged e :: t' => e :: entries t'
  | _ :: t' => entries t'
  end.

(** ** The write loop with an executor that logs and may panic

    In the service the executor is a function value.  What a call of the
    executor of the program does is more than its result: it logs, and it
    may panic, which nothing recovers.  A [Job] gives, for a message, the
    lines the call logs and how it ends. *)
Definition Job : Type := Message -> Answer * list Entry.

(** The executor of the program. *)
Definition command_job (commands : list (option Command))
    (Parse : Command -> Parsed) : Job :=
  fun input =>
    let '(answer, steps) := processMessageCommand commands Parse input in
    (answer, entries steps).

(** An executor that neither logs nor panics. *)
Definition pure_job (f : ProcessMessageFunc) : Job :=
  fun input => (Answered (f input), []).

(** The goroutine of [listenWrite] for a chat message, the call of the
    executor being spelled out: its lines, then either the panic or what the
    goroutine does with the answer. *)
Definition task (job : Job) (m : Message) (written : option error)
  : list Event :=
  ((JobFunc m :: map Log (snd (job m)))
     ++ match fst (job m) with
        | Panicked => [Panic]
        | Answered None => []
        | Answered (Some output) =>
            WriteJSON output
              :: match written with
                 | Some e => [Log (error_line output e)]
                 | None => []
                 end
        end)%list.

(** One iteration of [listenWrite], and the loop, as in [Chat] but for a
    [Job]. *)
Definition serveStep (job : Job) (t : Turn) : bool * list Event :=
  match selected t with
  | FromDone => (false, [])
  | FromPing _ =>
      (true,
       WriteJSON (ofType PONG)
         :: match written t with
            | Some e => [Log (error_line (ofType PONG) e)]
            | None => []
            end)
  | FromChat input => (true, [Go (task job input (written t))])
  end.

Fixpoint serve (job : Job) (turns : list Turn) : list Event :=
  match turns with
  | [] => []
  | t :: rest =>
      (snd (serveStep job t)
         ++ (if fst (serveStep job t) then serve job rest else []))%list
  end.

(** The actions of the write loop in a session in which the connection
    delivers [reads]. *)
Definition serving (job : Job) (reads : list ReadResult)
    (answers : list (option error)) : list Event :=
  serve job (schedule (handed (trace (listenRead reads))) answers).

(** A goroutine of the session panics; the process ends there. *)
Definition crashes (job : Job) (reads : list ReadResult)
    (answers : list (option error)) : bool :=
  existsb panics (spawned (serving job reads answers)).

(** The read loop returns: one of the reads fails. *)
Definition finishes (reads : list ReadResult) : bool :=
  existsb (fun r => match r with ReadErr _ _ => true | ReadOk _ => false end)
    reads.

(** [processMessageCommand] as the value stored in the configuration and
    in the service.  It gives the answer of a call that returns; what a call
    does besides, its panic included, is [command_job], which is what the
    goroutines of [serve] run. *)
Definition executor (commands : list (option Command))
    (Parse : Command -> Parsed) : ProcessMessageFunc :=
  fun input =>
    match fst (command_job commands Parse input) with
    | Answered output => output
    | Panicked => None
    end.

(** ** [main] *)

(** How the process ends. *)
Inductive End : Type :=
| Fatalf (format : string) (arg : error)   (* standard logger, then os.Exit(1) *)
| Fatalln (err : error)                    (* logrus, then os.Exit(1) *)
| Return                                   (* main returns *)
| Crashed                                  (* run-time panic *)
| Never.                                   (* main waits for ever *)

(** The exit status, when the process ends. *)
Definition status (e : End) : option Z :=
  match e with
  | Fatalf _ _ | Fatalln _ => Some 1
  | Return => Some 0
  | Crashed => Some 2
  | Never => None
  end.

(** [log.Fatalln(err)] of logrus: the line, then the exit. *)
Definition fatalln (err : error) : IO End :=
  logln FatalLevel [] [ArgError err] ;; ret (Fatalln err).

(** [Listen] starts the routines that listen for input and output
    messages.  [job] is what a call of the executor of the service does;
    [reads] and [answers] are what the connection delivers to the two
    loops. *)
Definition Listen (job : Job) (reads : list ReadResult)
    (answers : list (option error)) : IO unit :=
  emit (Go (trace (listenRead reads))) ;;
  emit (Go (serving job reads answers)).

Section Program.

Variable Conn : Type.

(** The outside world: the file system, the YAML decoder, [url.Parse], the
    dialer, the rendering of commands. *)
Variable ReadFile : string -> string + error.
Variable Unmarshal : string -> commandFile + error.
Variable url_Parse : string -> URL + error.
Variable dialer : URL -> Conn + error.
Variable Parse : Command -> Parsed.

(** What the connection delivers, once it is open, for as long as the
    process lives. *)
Variable reads : list ReadResult.
Variable answers : list (option error).

(** The context made by [context.WithTimeout(..., time.Second*10)] at
    instant [t] is done at [t + 10 s]. *)
Definition WithTimeout (t : Z) (timeout : Duration) : option Z := Some (t + timeout).

(** [main].  [commandFileName] is the value of the flag [commands-file].
    The goroutines started for the chat messages of [reads] run while the
    process lives; if one of them panics the process ends there.  Otherwise
    the run is one in which the interrupt signal arrives, at instant [quit].
    [written], [now] and [pick] are the circumstances of the call to
    [Close]; [doneCh] is closed when the read loop returns, at instant
    [ended] if one of the reads fails and never if none does. *)
Definition main (commandFileName : string) (quit : Z)
    (written : option error) (now : Z) (ended : Z) (pick : bool)
  : IO End :=
  match ReadCommandsFromFile ReadFile Unmarshal commandFileName with
  | Exits _ format arg => ret (Fatalf format arg)
  | Commands.Returns (_, Some err) => fatalln err
  | Commands.Returns (commands, None) =>
      r <- NewChatService Conn url_Parse dialer
             (mkConfig "wss" "stream.skynewz.dev" "/entry"
                (Some (executor commands Parse))) ;;
      match snd r with
      | Some err => fatalln err
      | None =>
          match fst r with
          | None => emit Panic ;; ret Crashed
          | Some chatService =>
              Listen (command_job commands Parse) reads answers ;;
              if crashes (command_job commands Parse) reads answers
              then ret Crashed
              else
                let ctx := WithTimeout quit (Second * 10) in
                let done := if finishes reads then Some ended else None in
                e <- Close Conn chatService written now done ctx pick ;;
                match e with
                | Chat.Returns (Some err) => fatalln err
                | Chat.Returns None => ret Return
                | Blocked => ret Never
                end
          end
      end
  end.

End Program.

(** The target of [main] and the header of its handshake. *)
Definition target : URL := mkURL "wss" "stream.skynewz.dev" "/entry".

Definition handshake : Event := Dial target [("Origin", ["http://localhost"])].

Definition connecting : Event :=
  Log (mkEntry DebugLevel [] (Printf "connecting to %s" [ArgURL target])).

End Main.

(* ===================================================================== *)
(** * Facts *)
(* ===================================================================== *)

Module GoFacts.
Import Go.

Example zero_time_text : formatRFC3339Nano zeroTime = "0001-01-01T00:00:00Z".
Proof. reflexivity. Qed.

Example unix_epoch_text :
  formatRFC3339Nano (mkTime 62135596800 0 0) = "1970-01-01T00:00:00Z".
Proof. vm_compute. reflexivity. Qed.

Example leap_day_text :
  formatRFC3339Nano (mkTime (62135596800 + 1709210096) 120000000 7200)
  = "2024-02-29T14:34:56.12+02:00".
Proof. vm_compute. reflexivity. Qed.

Example duration_texts :
  map Duration_String [0; 5 * Second; 60 * Second; 3661 * Second; - 90 * Second;
                       1500 * Millisecond; 1500]
  = ["0s"; "5s"; "1m0s"; "1h1m1s"; "-1m30s"; "1.5s";
     "1.5" ++ String (ascii_of_nat 194) (String (ascii_of_nat 181) "s")].
Proof. vm_compute. reflexivity. Qed.

End GoFacts.

Module WireFacts.
Import Go Wire.

(** The timestamp is written for every message that can be encoded. *)
Lemma Marshal_has_timestamp (m : Message) (o : JObject) :
  Marshal m = inl o -> has_key "timestamp" o = true.
Proof.
  unfold Marshal, time_field.
  destruct (Time_MarshalJSON (Timestamp m)) as [text | e]; [| discriminate].
  intros H. injection H as <-. unfold has_key, keys.
  rewrite !map_app, !existsb_app. cbn [map existsb fst].
  rewrite !map_app, !existsb_app.
  assert (Hts : existsb (String.eqb "timestamp")
                  (map fst [("timestamp", JString text)]) = true)
    by reflexivity.
  rewrite Hts, !orb_true_r. reflexivity.
Qed.

(** The other optional members are written exactly when they are not
    empty. *)
Lemma Marshal_omits_empty (m : Message) (o : JObject) :
  Marshal m = inl o ->
  has_key "author" o = negb (Author m =? "")%string
  /\ has_key "body" o = negb (Body m =? "")%string
  /\ has_key "id" o = negb (ID m =? "")%string
  /\ has_key "type" o = true
  /\ has_key "visible" o = Visible m.
Proof.
  unfold Marshal, time_field.
  destruct (Time_MarshalJSON (Timestamp m)) as [text | e]; [| discriminate].
  intros H. inversion H; subst. clear H.
  unfold has_key, keys, string_field, bool_field.
  destruct (Author m =? "")%string, (Body m =? "")%string,
    (ID m =? "")%string, (Visible m); repeat split; reflexivity.
Qed.

(** C1, on the input [Message{Type: t}].  With every optional field at its
    zero value, the encoding holds two members, [type] and [timestamp]: the
    zero instant is written out, [omitempty] notwithstanding. *)
Theorem zero_message_keeps_timestamp (t : string) :
  Marshal (ofType t)
  = inl [("type", JString t); ("timestamp", JString "0001-01-01T00:00:00Z")].
Proof.
  reflexivity.
Qed.

(** Decoding what was encoded gives the message back, provided the text of
    its instant is read back to the same instant. *)
Lemma decode_Marshal (parseTime : string -> option Time) (m : Message)
    (o : JObject) :
  Marshal m = inl o ->
  parseTime (formatRFC3339Nano (Timestamp m)) = Some (Timestamp m) ->
  decode parseTime o = Some m.
Proof.
  unfold Marshal, time_field.
  destruct (Time_MarshalJSON (Timestamp m)) as [text | e] eqn:Ht; [| discriminate].
  assert (Htext : text = formatRFC3339Nano (Timestamp m)).
  { unfold Time_MarshalJSON in Ht.
    destruct (_ || _); [discriminate |].
    destruct (_ && _); [discriminate |]. inversion Ht. reflexivity. }
  subst text.
  intros H Hp. inversion H; subst. clear H.
  destruct m as [author body id type visible timestamp]. cbn [Author Body ID Type_ Visible Timestamp] in *.
  unfold decode, string_field, bool_field.
  destruct (String.eqb_spec author ""), (String.eqb_spec body ""),
    (String.eqb_spec id ""), visible;
    subst; cbn -[formatRFC3339Nano]; rewrite Hp; reflexivity.
Qed.

End WireFacts.

Module ChatFacts.
Import Go Wire Chat.
Local Open Scope io_scope.

(** ** The trace of a sequence *)

Lemma trace_bind {A B : Type} (c : IO A) (k : A -> IO B) :
  trace (bind c k) = (trace c ++ trace (k (value c)))%list.
Proof.
  destruct c as [a t1]. unfold bind, trace, value. simpl.
  destruct (k a) as [b t2]. reflexivity.
Qed.

Lemma value_bind {A B : Type} (c : IO A) (k : A -> IO B) :
  value (bind c k) = value (k (value c)).
Proof.
  destruct c as [a t1]. unfold bind, value. simpl.
  destruct (k a) as [b t2]. reflexivity.
Qed.

Lemma dial_calls_app (t1 t2 : list Event) :
  dial_calls (t1 ++ t2) = (dial_calls t1 + dial_calls t2)%nat.
Proof.
  unfold dial_calls. rewrite filter_app, length_app. reflexivity.
Qed.

(** ** Connecting *)

Section Connect.

Variable Conn : Type.
Variable url_Parse : string -> URL + error.
Variable dialer : URL -> Conn + error.


(** [validate] reports the first check that fails. *)
Lemma validate_reports (config : Config) (f : Field) :
  invalid url_Parse config f ->
  exists g err,
    validate url_Parse config = Some err /\ invalid url_Parse config g /\ ConfigError g err.
Proof.
  intros Hf. unfold Chat.validate.
  destruct (String.eqb_spec (Scheme config) "") as [Hs | Hs].
  { exists FieldScheme. eexists. repeat split; simpl; auto. }
  destruct (String.eqb_spec (Host config) "") as [Hh | Hh].
  { exists FieldHost. eexists. repeat split; simpl; auto. }
  destruct (CommandExecutorFunc config) as [fn |] eqn:He.
  2:{ exists FieldExecutor. eexists. repeat split; simpl; auto. }
  destruct (url_Parse (Scheme config ++ "://" ++ Host config ++ Path config))
    as [u | cause] eqn:Hp.
  2:{ exists FieldURL. eexists. repeat split; simpl; eauto. }
  destruct f; unfold Chat.invalid in Hf; try contradiction; try congruence.
  destruct Hf as [cause Hc]. congruence.
Qed.

(** A configuration that passes [validate] has all it checks. *)
Lemma validate_passes (config : Config) :
  validate url_Parse config = None ->
  Scheme config <> "" /\ Host config <> ""
  /\ CommandExecutorFunc config <> None.
Proof.
  unfold Chat.validate.
  destruct (String.eqb_spec (Scheme config) ""); [discriminate |].
  destruct (String.eqb_spec (Host config) ""); [discriminate |].
  destruct (CommandExecutorFunc config); [| discriminate].
  intros _. repeat split; auto. discriminate.
Qed.

(** The service [NewChatService] returns carries a processing function. *)
Lemma NewChatService_jobFunc (config : Config) (c : ChatService Conn)
    (err : option error) :
  value (NewChatService Conn url_Parse dialer config) = (Some c, err) ->
  exists f, jobFunc Conn c = Some f.
Proof.
  unfold Chat.NewChatService.
  destruct (Chat.validate url_Parse config) as [e |] eqn:Hv.
  { simpl. discriminate. }
  apply validate_passes in Hv. destruct Hv as (_ & _ & Hf).
  rewrite !value_bind.
  destruct (dialer _) as [conn | e]; simpl; intros H; inversion H; subst.
  simpl. destruct (CommandExecutorFunc config) as [f |]; [eauto | congruence].
Qed.

(** C4.  Whenever the scheme is empty, the host is empty, the processing
    function is absent or the composed URL does not parse, [NewChatService]
    returns no service and an error that names a field which is indeed
    missing or invalid, and the dialer is not called: the trace of the call
    holds no [Dial] (it holds nothing at all).  The case of an empty host is
    the instance [f = FieldHost]. *)
Theorem connect_invalid_config_no_dial (config : Config) (f : Field) :
  invalid url_Parse config f ->
  exists g err,
    value (NewChatService Conn url_Parse dialer config) = (None, Some err)
    /\ invalid url_Parse config g /\ ConfigError g err
    /\ (Host config = "" ->
        err = errorString "missing websocket scheme"
        \/ err = errorString "missing websocket host")
    /\ trace (NewChatService Conn url_Parse dialer config) = []
    /\ dial_calls (trace (NewChatService Conn url_Parse dialer config)) = 0%nat.
Proof.
  intros Hf.
  destruct (validate_reports config f Hf) as (g & err & Hv & Hg & He).
  exists g, err. unfold Chat.NewChatService. rewrite Hv. simpl.
  repeat split; auto.
  intros Hh. unfold Chat.validate in Hv.
  destruct (Scheme config =? "")%string; [left; congruence |].
  rewrite Hh in Hv. simpl in Hv. right. congruence.
Qed.

End Connect.

(** An empty host, everything else in order: the error names the host and
    the dialer is not called. *)
Lemma connect_invalid_config_no_dial_witness :
  let config :=
    mkConfig "wss" "" "/entry" (Some (fun _ : Message => None)) in
  let parse := fun _ : string => inl (mkURL "wss" "" "/entry") : URL + error in
  let dialer := fun _ : URL => inl tt : unit + error in
  invalid parse config FieldHost
  /\ exists g err,
      value (NewChatService unit parse dialer config) = (None, Some err)
      /\ invalid parse config g /\ ConfigError g err
      /\ (Host config = "" ->
          err = errorString "missing websocket scheme"
          \/ err = errorString "missing websocket host")
      /\ trace (NewChatService unit parse dialer config) = []
      /\ dial_calls (trace (NewChatService unit parse dialer config)) = 0%nat.
Proof.
  intros config parse dialer.
  split; [reflexivity |].
  apply (connect_invalid_config_no_dial unit parse dialer config FieldHost).
  reflexivity.
Defined.

(** ** Closing *)

Section Closing.

Variable Conn : Type.
Variable c : ChatService Conn.



End Closing.


(** ** The read loop *)

Lemma trace_listenRead_ok (m : Message) (rest : list ReadResult) :
  trace (listenRead (ReadOk m :: rest))
  = (Log (received_line m) :: trace (dispatch m) ++ trace (listenRead rest))%list.
Proof.
  cbn [listenRead]. rewrite trace_bind. cbn [readStep].
  rewrite !value_bind, !trace_bind. simpl. rewrite app_nil_r. reflexivity.
Qed.

Lemma trace_listenRead_err (m : Message) (err : error) (rest : list ReadResult) :
  trace (listenRead (ReadErr m err :: rest))
  = ((if unexpected err then [Log (error_line m err)] else [])
       ++ [CloseDoneCh])%list.
Proof.
  cbn [listenRead]. rewrite trace_bind. cbn [readStep].
  rewrite !value_bind, !trace_bind.
  destruct (unexpected err); reflexivity.
Qed.

Lemma handed_app (t1 t2 : list Event) :
  handed (t1 ++ t2) = (handed t1 ++ handed t2)%list.
Proof.
  induction t1 as [| e t1 IH]; simpl; [reflexivity |].
  destruct e; simpl; rewrite IH; reflexivity.
Qed.

(** What the [switch] hands over to the write loop. *)
Lemma handed_dispatch (m : Message) :
  handed (trace (dispatch m))
  = if is_ping m then [FromPing m]
    else if is_chat m then [FromChat m]
    else [].
Proof.
  unfold dispatch, is_ping, is_chat.
  destruct (Type_ m =? PING)%string; [reflexivity |].
  destruct (Type_ m =? CHAT)%string; [reflexivity |].
  destruct (Type_ m =? SYSTEM)%string; [reflexivity |].
  destruct (Type_ m =? NAME_CHANGE)%string; reflexivity.
Qed.

Lemma handed_listenRead_ok (m : Message) (rest : list ReadResult) :
  handed (trace (listenRead (ReadOk m :: rest)))
  = (handed (trace (dispatch m)) ++ handed (trace (listenRead rest)))%list.
Proof.
  rewrite trace_listenRead_ok. simpl. apply handed_app.
Qed.

Lemma handed_listenRead_err (m : Message) (err : error) (rest : list ReadResult) :
  handed (trace (listenRead (ReadErr m err :: rest))) = [FromDone].
Proof.
  rewrite trace_listenRead_err. destruct (unexpected err); reflexivity.
Qed.

(** A type that none of the four cases of the [switch] matches. *)
Lemma dispatch_default (m : Message) :
  Type_ m <> PING -> Type_ m <> CHAT ->
  Type_ m <> SYSTEM -> Type_ m <> NAME_CHANGE ->
  dispatch m = logf WarnLevel [] "unknow message type received: %s" [ArgMessage m].
Proof.
  intros H1 H2 H3 H4. unfold dispatch.
  destruct (String.eqb_spec (Type_ m) PING); [contradiction |].
  destruct (String.eqb_spec (Type_ m) CHAT); [contradiction |].
  destruct (String.eqb_spec (Type_ m) SYSTEM); [contradiction |].
  destruct (String.eqb_spec (Type_ m) NAME_CHANGE); [contradiction |].
  reflexivity.
Qed.

Lemma dispatch_ignored (m : Message) :
  Type_ m = SYSTEM \/ Type_ m = NAME_CHANGE -> dispatch m = ret tt.
Proof.
  unfold dispatch. intros [H | H]; rewrite H; reflexivity.
Qed.

Lemma trace_readStep_ok (m : Message) :
  trace (readStep (ReadOk m)) = Log (received_line m) :: trace (dispatch m).
Proof.
  cbn [readStep]. rewrite !trace_bind. simpl. rewrite app_nil_r. reflexivity.
Qed.

(** C5, as amended.  The [switch] does nothing at all for a message of type
    SYSTEM or NAME_CHANGE: handling such a message writes nothing, hands
    nothing over to the write loop, and logs only the debug line
    [Received ... request] that the loop logs for every decoded message, so
    no warning.  For a type outside the four cases, handling the message
    writes nothing, hands nothing over, and logs that debug line followed by
    exactly one warning. *)
Theorem ignored_and_unknown_types (m : Message) :
  let t := trace (readStep (ReadOk m)) in
  (Type_ m = SYSTEM \/ Type_ m = NAME_CHANGE ->
     trace (dispatch m) = []
     /\ outbound t = [] /\ enqueued t = [] /\ handed t = []
     /\ logged t = [received_line m]
     /\ filter (is_level WarnLevel) (logged t) = [])
  /\ (Type_ m <> PING -> Type_ m <> CHAT ->
      Type_ m <> SYSTEM -> Type_ m <> NAME_CHANGE ->
     outbound t = [] /\ enqueued t = [] /\ handed t = []
     /\ logged t = [received_line m; unknown_type_warning m]
     /\ filter (is_level WarnLevel) (logged t) = [unknown_type_warning m]).
Proof.
  intros t. subst t. rewrite trace_readStep_ok. split.
  - intros H. rewrite (dispatch_ignored m H). simpl. repeat split.
  - intros H1 H2 H3 H4. rewrite (dispatch_default m H1 H2 H3 H4).
    simpl. repeat split.
Qed.

(** A SYSTEM message, and a message of a type nobody knows. *)
Lemma ignored_and_unknown_types_witness :
  let sys := mkMessage "owncast" "stream started" "42" SYSTEM true zeroTime in
  let odd := ofType "USER_JOINED" in
  logged (trace (readStep (ReadOk sys))) = [received_line sys]
  /\ filter (is_level WarnLevel) (logged (trace (readStep (ReadOk odd))))
     = [unknown_type_warning odd].
Proof.
  intros sys odd.
  destruct (ignored_and_unknown_types sys) as [Hs _].
  destruct (ignored_and_unknown_types odd) as [_ Ho].
  split.
  - apply Hs. left. reflexivity.
  - apply Ho; discriminate.
Defined.

(** C5, as stated, fails: handling a SYSTEM message is not silent, the read
    loop logs [Received SYSTEM request] at debug level before the
    [switch], and at the level [init] configures by default the line is
    written out. *)
Lemma system_message_not_silent :
  Type_ (ofType SYSTEM) = SYSTEM
  /\ logged (trace (readStep (ReadOk (ofType SYSTEM))))
     = [mkEntry DebugLevel [] (Printf "Received %s request" [ArgString "SYSTEM"])]
  /\ written_out (init None) (trace (readStep (ReadOk (ofType SYSTEM))))
     = [mkEntry DebugLevel [] (Printf "Received %s request" [ArgString "SYSTEM"])]
  /\ ~ silent (trace (readStep (ReadOk (ofType SYSTEM)))).
Proof.
  split; [reflexivity |]. split; [reflexivity |]. split; [reflexivity |].
  intros (_ & _ & H). discriminate H.
Qed.

(** C8.  A message of type PONG matches none of the cases of the [switch]:
    it takes the default branch, as any unknown type does.  The warning is
    logged, and the message is neither handed to the write loop nor passed
    over in silence. *)
Theorem pong_takes_default_branch (m : Message) :
  Type_ m = PONG ->
  let t := trace (readStep (ReadOk m)) in
  dispatch m = logf WarnLevel [] "unknow message type received: %s" [ArgMessage m]
  /\ enqueued t = [] /\ handed t = []
  /\ logged t = [received_line m; unknown_type_warning m].
Proof.
  intros H t. subst t.
  assert (Hd : dispatch m
               = logf WarnLevel [] "unknow message type received: %s" [ArgMessage m]).
  { apply dispatch_default; rewrite H; discriminate. }
  rewrite trace_readStep_ok, Hd. simpl. repeat split.
Qed.

Lemma pong_takes_default_branch_witness :
  let m := mkMessage "server" "" "7" PONG false zeroTime in
  Type_ m = PONG
  /\ logged (trace (readStep (ReadOk m))) = [received_line m; unknown_type_warning m].
Proof.
  intros m. split; [reflexivity |].
  apply (pong_takes_default_branch m eq_refl).
Defined.

(** ** The write loop *)

Section Writing.

Variable Conn : Type.
Variable c : ChatService Conn.

Lemma trace_listenWrite_cons (t : Turn) (rest : list Turn) :
  trace (listenWrite Conn c (t :: rest))
  = (trace (writeStep Conn c t)
       ++ (if value (writeStep Conn c t)
           then trace (listenWrite Conn c rest) else []))%list.
Proof.
  cbn [listenWrite]. rewrite trace_bind.
  destruct (value (writeStep Conn c t)); reflexivity.
Qed.

(** The turn of a keepalive: one PONG is written, whatever was received. *)
Lemma writeStep_ping (m : Message) (w : option error) :
  value (writeStep Conn c (mkTurn (FromPing m) w)) = true
  /\ trace (writeStep Conn c (mkTurn (FromPing m) w))
     = WriteJSON (ofType PONG)
         :: match w with
            | Some e => [Log (error_line (ofType PONG) e)]
            | None => []
            end.
Proof.
  destruct w as [e |]; split; reflexivity.
Qed.

(** The turn of a chat message: one goroutine is started. *)
Lemma writeStep_chat (input : Message) (w : option error) :
  value (writeStep Conn c (mkTurn (FromChat input) w)) = true
  /\ trace (writeStep Conn c (mkTurn (FromChat input) w))
     = [Go (trace (chatTask Conn c input w))].
Proof.
  split; reflexivity.
Qed.

(** The goroutine of a chat message calls the processing function once and
    writes its answer, if there is one. *)
Lemma chatTask_trace (f : ProcessMessageFunc) (input : Message)
    (w : option error) :
  jobFunc Conn c = Some f ->
  trace (chatTask Conn c input w)
  = JobFunc input
      :: match f input with
         | None => []
         | Some output =>
             WriteJSON output
               :: match w with
                  | Some e => [Log (error_line output e)]
                  | None => []
                  end
         end.
Proof.
  intros Hf. unfold chatTask. rewrite Hf.
  destruct (f input) as [output |]; [| reflexivity].
  destruct w; reflexivity.
Qed.

(** C6, as amended.  When writing the PONG of a keepalive fails with [e],
    the write loop logs [e] at error level with two fields, the body and the
    type of the PONG (empty and ["PONG"]), and goes on with the next turn. *)
Theorem pong_failure_logged_loop_continues (m : Message) (e : error)
    (rest : list Turn) :
  trace (listenWrite Conn c (mkTurn (FromPing m) (Some e) :: rest))
  = ([WriteJSON (ofType PONG);
      Log (mkEntry ErrorLevel [("body", ""); ("type", "PONG")]
             (Println [ArgError e]))]
       ++ trace (listenWrite Conn c rest))%list.
Proof.
  rewrite trace_listenWrite_cons.
  destruct (writeStep_ping m (Some e)) as [Hv Ht].
  rewrite Hv, Ht. reflexivity.
Qed.

(** The write loop in a session, one read at a time. *)
Lemma session_failed_read (m : Message) (err : error)
    (rest : list ReadResult) (answers : list (option error)) :
  session Conn c (ReadErr m err :: rest) answers = [].
Proof.
  unfold session. rewrite handed_listenRead_err. reflexivity.
Qed.

Lemma session_ping (m : Message) (rest : list ReadResult)
    (answers : list (option error)) :
  is_ping m = true ->
  session Conn c (ReadOk m :: rest) answers
  = (trace (writeStep Conn c (mkTurn (FromPing m) (hd None answers)))
       ++ session Conn c rest (tl answers))%list.
Proof.
  intros H. unfold session.
  rewrite handed_listenRead_ok, handed_dispatch, H.
  cbn [app schedule]. rewrite trace_listenWrite_cons.
  destruct (writeStep_ping m (hd None answers)) as [-> _]. reflexivity.
Qed.

Lemma session_chat (m : Message) (rest : list ReadResult)
    (answers : list (option error)) :
  is_ping m = false -> is_chat m = true ->
  session Conn c (ReadOk m :: rest) answers
  = (Go (trace (chatTask Conn c m (hd None answers)))
       :: session Conn c rest (tl answers))%list.
Proof.
  intros H1 H2. unfold session.
  rewrite handed_listenRead_ok, handed_dispatch, H1, H2.
  cbn [app schedule]. rewrite trace_listenWrite_cons.
  destruct (writeStep_chat m (hd None answers)) as [-> ->]. reflexivity.
Qed.

Lemma session_other (m : Message) (rest : list ReadResult)
    (answers : list (option error)) :
  is_ping m = false -> is_chat m = false ->
  session Conn c (ReadOk m :: rest) answers = session Conn c rest answers.
Proof.
  intros H1 H2. unfold session.
  rewrite handed_listenRead_ok, handed_dispatch, H1, H2. reflexivity.
Qed.


(** C3.  In a session, the messages the write loop writes on the connection
    are exactly one PONG for each PING received, in order; each of them has
    the type PONG and every other field at its zero value, whatever the PING
    carried. *)
Theorem one_pong_per_ping (reads : list ReadResult)
    (answers : list (option error)) :
  outbound (session Conn c reads answers)
  = map (fun _ : Message => mkMessage "" "" "" PONG false zeroTime)
        (filter is_ping (received reads)).
Proof.
  revert answers. induction reads as [| r rest IH]; intros answers.
  - reflexivity.
  - destruct r as [m | m err].
    + cbn [received filter]. destruct (is_ping m) eqn:Hp.
      * rewrite (session_ping m rest answers Hp).
        destruct (writeStep_ping m (hd None answers)) as [_ ->].
        cbn [map]. rewrite <- (IH (tl answers)).
        destruct (hd None answers); reflexivity.
      * destruct (is_chat m) eqn:Hc.
        -- rewrite (session_chat m rest answers Hp Hc). cbn [outbound].
           apply IH.
        -- rewrite (session_other m rest answers Hp Hc). apply IH.
    + rewrite session_failed_read. reflexivity.
Qed.


End Writing.


(** C6, as stated, fails: the line logged for a failed PONG has the fields
    [body] and [type] and no field for the author. *)
Lemma pong_failure_log_has_no_author :
  let c := mkChatService unit tt make_chan make_chan None make_chan in
  let ping := mkMessage "alice" "are you there" "1" PING true zeroTime in
  let t := trace (writeStep unit c
                    (mkTurn (FromPing ping) (Some (errorString "broken pipe")))) in
  map field_names (logged t) = [["body"; "type"]]
  /\ ~ (exists e, In e (logged t) /\ In "author" (field_names e)).
Proof.
  intros c ping t. split; [reflexivity |].
  intros (e & He & Ha). simpl in He.
  destruct He as [<- | []]. simpl in Ha.
  destruct Ha as [H | [H | []]]; discriminate H.
Qed.


End ChatFacts.

Module PlaceholderFacts.
Import Go Placeholder.

Section Cache.

Variable network : nat -> Response.
Variable Decode : string -> ServerStatus + error.

(** With a cached status the lookup answers from the cache and leaves the
    world as it is. *)
Lemma getServerStatus_cached (w : World) (ss : ServerStatus) :
  serverStatus w = Some ss ->
  getServerStatus network Decode w = (inl ss, w).
Proof.
  intros H. unfold getServerStatus. rewrite H. reflexivity.
Qed.

(** A lookup that succeeds leaves its result in the cache. *)
Lemma getServerStatus_fills_cache (w w' : World) (ss : ServerStatus) :
  getServerStatus network Decode w = (inl ss, w') ->
  serverStatus w' = Some ss.
Proof.
  unfold getServerStatus.
  destruct (serverStatus w) as [cached |] eqn:Hc.
  - intros H. inversion H; subst. exact Hc.
  - destruct (network _) as [err | content]; [discriminate |].
    destruct (Decode content) as [ss' | err]; [| discriminate].
    intros H. inversion H; subst. reflexivity.
Qed.

(** A lookup that fails leaves the cache empty. *)
Lemma getServerStatus_failure (w w' : World) (err : error) :
  getServerStatus network Decode w = (inr err, w') ->
  serverStatus w = None /\ serverStatus w' = None
  /\ length (requested w') = S (length (requested w)).
Proof.
  unfold getServerStatus.
  destruct (serverStatus w) as [cached |] eqn:Hc; [discriminate |].
  destruct (network _) as [e | content].
  - intros H. inversion H; subst. cbn [sent serverStatus requested].
    rewrite length_app, Nat.add_comm. repeat split. exact Hc.
  - destruct (Decode content) as [ss' | e]; [discriminate |].
    intros H. inversion H; subst.
    cbn [body_closed sent serverStatus requested].
    rewrite length_app, Nat.add_comm. repeat split. exact Hc.
Qed.

Lemma Uptime_cached (now : Time) (w : World) (ss : ServerStatus) :
  serverStatus w = Some ss ->
  Uptime network Decode now w
  = (Duration_String (Truncate (Sub now (LastConnectTime ss)) Second), w).
Proof.
  intros H. unfold Uptime. rewrite (getServerStatus_cached w ss H). reflexivity.
Qed.

Lemma run_cached (calls : list Call) (w : World) (ss : ServerStatus) :
  serverStatus w = Some ss ->
  run network Decode calls w = (map (cached_answer ss) calls, w).
Proof.
  intros H. induction calls as [| c rest IH]; [reflexivity |].
  cbn [run map]. destruct c as [| now]; cbn [call cached_answer].
  - rewrite (getServerStatus_cached w ss H), IH. reflexivity.
  - rewrite (Uptime_cached now w ss H), IH. reflexivity.
Qed.

(** C9.  Once a lookup has succeeded with [ss], any later sequence of
    lookups and uptime calls leaves the world untouched (no request is
    added, the cache keeps [ss]); every later lookup returns [ss] and every
    later uptime is the time elapsed since the [LastConnectTime] of [ss],
    cut to whole seconds.  A lookup that fails makes [Uptime] return the
    empty string, the error being logged and not returned. *)
Theorem status_cached_after_first_success (w : World) :
  (forall ss w',
      getServerStatus network Decode w = (inl ss, w') ->
      serverStatus w' = Some ss
      /\ forall calls,
          run network Decode calls w' = (map (cached_answer ss) calls, w'))
  /\ (forall err w',
        getServerStatus network Decode w = (inr err, w') ->
        forall now,
          Uptime network Decode now w
          = ("", Errorln err w')).
Proof.
  split.
  - intros ss w' H.
    pose proof (getServerStatus_fills_cache w w' ss H) as Hc.
    split; [exact Hc |].
    intros calls. apply run_cached. exact Hc.
  - intros err w' H now. unfold Uptime. rewrite H. reflexivity.
Qed.

End Cache.

(** A network that fails on the first request and answers afterwards: the
    first uptime is empty, the second lookup fills the cache, and from then
    on the first status is used although the network would answer. *)
Lemma status_cached_after_first_success_witness :
  let started := mkTime 63800000000 0 0 in
  let ss := mkServerStatus true 3 10 5 started zeroTime "0.0.6" in
  let network := fun k : nat =>
    match k with
    | O => GetFailed (errorString "connection refused")
    | _ => GetBody "status"
    end in
  let decode := fun _ : string => inl ss : ServerStatus + error in
  let w0 := mkWorld None [] 0 [] in
  let w1 := snd (Uptime network decode started w0) in
  let w2 := snd (getServerStatus network decode w1) in
  fst (Uptime network decode started w0) = ""
  /\ serverStatus w2 = Some ss
  /\ run network decode
       [CallUptime (mkTime 63800003725 500 0); CallGetServerStatus] w2
     = ([Text "1h2m5s"; Status (inl ss)], w2).
Proof.
  intros started ss network decode w0 w1 w2.
  destruct (status_cached_after_first_success network decode w0) as [_ Hfail].
  destruct (status_cached_after_first_success network decode w1) as [Hok _].
  split.
  - rewrite (Hfail (errorString "connection refused")
               (sent (ServerURL ++ "/api/status") w0) eq_refl started).
    reflexivity.
  - destruct (Hok ss w2 eq_refl) as [Hc Hrun].
    split; [exact Hc |]. rewrite Hrun. reflexivity.
Defined.

End PlaceholderFacts.

Module CommandsFacts.
Import Go Commands.

Section Read.

Variable ReadFile : string -> string + error.
Variable Unmarshal : string -> commandFile + error.

(** C10.  When the file cannot be read, [ReadCommandsFromFile] returns the
    error of the read.  When the file is read and its content does not
    parse, the process exits with status 1 after printing the error, and
    nothing is returned.  An error that is returned is therefore always the
    error of the read. *)
Theorem parse_failure_exits (file : string) :
  (forall err,
      ReadFile file = inr err ->
      ReadCommandsFromFile ReadFile Unmarshal file = Returns ([], Some err))
  /\ (forall data err,
        ReadFile file = inl data -> Unmarshal data = inr err ->
        ReadCommandsFromFile ReadFile Unmarshal file = Exits 1 "error: %v" err)
  /\ (forall commands err,
        ReadCommandsFromFile ReadFile Unmarshal file = Returns (commands, Some err) ->
        ReadFile file = inr err).
Proof.
  unfold ReadCommandsFromFile. repeat split.
  - intros err ->. reflexivity.
  - intros data err -> ->. reflexivity.
  - intros commands err.
    destruct (ReadFile file) as [data | e].
    + destruct (Unmarshal data); discriminate.
    + intros H. inversion H. reflexivity.
Qed.

End Read.

(** A file system with one file, whose content does not parse. *)
Lemma parse_failure_exits_witness :
  let ReadFile := fun name : string =>
    if (name =? "commands.yml")%string then inl "commands: ["
    else inr (errorString "open: no such file or directory") in
  let Unmarshal := fun _ : string =>
    inr (errorString "yaml: line 1: did not find expected node content")
    : commandFile + error in
  ReadCommandsFromFile ReadFile Unmarshal "missing.yml"
  = Returns ([], Some (errorString "open: no such file or directory"))
  /\ ReadCommandsFromFile ReadFile Unmarshal "commands.yml"
     = Exits 1 "error: %v"
         (errorString "yaml: line 1: did not find expected node content").
Proof.
  intros ReadFile Unmarshal. split.
  - apply (proj1 (parse_failure_exits ReadFile Unmarshal "missing.yml")).
    reflexivity.
  - apply (proj1 (proj2 (parse_failure_exits ReadFile Unmarshal "commands.yml"))
             "commands: ["); reflexivity.
Defined.

End CommandsFacts.

Module RegexpFacts.
Import Go Regexp.

(** ** Texts *)

Lemma strip_Some (p s r : string) : strip p s = Some r -> s = p ++ r.
Proof.
  revert s. induction p as [| a p IH]; intros s; simpl.
  - intros H. inversion H. reflexivity.
  - destruct s as [| b s]; [discriminate |].
    destruct (Ascii.eqb_spec a b) as [-> |]; [| discriminate].
    intros H. rewrite (IH s H). reflexivity.
Qed.

Lemma strip_app (p s : string) : strip p (p ++ s) = Some s.
Proof.
  induction p as [| a p IH]; simpl; [reflexivity |].
  rewrite Ascii.eqb_refl. exact IH.
Qed.

Lemma span_spec (f : ascii -> bool) (s w tail : string) :
  span f s = (w, tail) -> s = w ++ tail /\ all f w = true.
Proof.
  revert w tail. induction s as [| c s IH]; intros w tail; simpl.
  - intros H. inversion H. split; reflexivity.
  - destruct (f c) eqn:Hc.
    + destruct (span f s) as [w' tail'] eqn:Hs.
      intros H. inversion H; subst. destruct (IH w' tail eq_refl) as [-> Hall].
      simpl. rewrite Hc, Hall. split; reflexivity.
    + intros H. inversion H. split; reflexivity.
Qed.

(** A run of characters satisfying [f] is found whole when what follows
    does not begin with such a character. *)
Lemma span_app (f : ascii -> bool) (w tail : string) :
  all f w = true ->
  match tail with EmptyString => True | String c _ => f c = false end ->
  span f (w ++ tail) = (w, tail).
Proof.
  intros Hw Ht. induction w as [| c w IH]; simpl in *.
  - destruct tail as [| c t]; [reflexivity |]. simpl. rewrite Ht. reflexivity.
  - apply andb_prop in Hw. destruct Hw as [Hc Hw].
    rewrite Hc, (IH Hw). reflexivity.
Qed.

(** ** One or more characters of a class *)

Lemma Match_plus_class (lo hi : ascii) (s : string) (c : list string) :
  Match (Plus (Class lo hi)) s c ->
  c = [] /\ s <> "" /\ all (in_class lo hi) s = true.
Proof.
  intros H. remember (Plus (Class lo hi)) as r eqn:Hr.
  induction H as [ | | | r s c H _ | r s1 s2 c1 c2 H1 _ H2 IH2 | ];
    try discriminate; inversion Hr; subst.
  - inversion H as [ | lo' hi' ch Hch | | | | ]; subst.
    simpl. rewrite Hch. repeat split. discriminate.
  - destruct (IH2 eq_refl) as (-> & Hne & Hall).
    inversion H1 as [ | lo' hi' ch Hch | | | | ]; subst.
    simpl. rewrite Hch, Hall. repeat split. discriminate.
Qed.

Lemma all_Match_plus (lo hi : ascii) (w : string) :
  all (in_class lo hi) w = true -> w <> "" ->
  Match (Plus (Class lo hi)) w [].
Proof.
  induction w as [| c w IH]; [intros _ H; contradiction H; reflexivity |].
  simpl. intros Hall _. apply andb_prop in Hall. destruct Hall as [Hc Hw].
  destruct w as [| c' w'].
  - apply MatchOnce. apply MatchClass. exact Hc.
  - change (String c (String c' w')) with (String c "" ++ String c' w').
    apply (MatchMore _ _ _ [] []).
    + apply MatchClass. exact Hc.
    + apply IH; [exact Hw | discriminate].
Qed.

(** ** The command pattern *)

(** The texts the pattern matches, and what its group captures. *)
Lemma Match_commandPattern (v : string) (caps : list string) :
  Match commandPattern v caps <->
  exists w, w <> "" /\ all lower w = true
            /\ v = "<p>!" ++ w ++ "</p>" /\ caps = [String "!" w].
Proof.
  unfold commandPattern. split.
  - intros H.
    inversion H as [ | | ? ? ? sa ? ca Ha Hb | | | ]; subst; clear H.
    inversion Ha; subst; clear Ha.
    inversion Hb as [ | | ? ? sb ? cb ? Hc Hd | | | ]; subst; clear Hb.
    inversion Hd; subst; clear Hd.
    inversion Hc as [ | | | | | ? ? ? cc He ]; subst; clear Hc.
    inversion He as [ | | ? ? ? w ? cw Hf Hg | | | ]; subst; clear He.
    inversion Hf; subst; clear Hf.
    destruct (Match_plus_class _ _ _ _ Hg) as (-> & Hne & Hall).
    exists w. repeat split; auto.
  - intros (w & Hne & Hall & -> & ->).
    change ("<p>!" ++ w ++ "</p>") with ("<p>" ++ (("!" ++ w) ++ "</p>")).
    apply (MatchConcat _ _ _ _ [] [String "!" w]); [constructor |].
    apply (MatchConcat _ _ _ _ [String "!" w] []); [| constructor].
    apply (MatchCapture "command" _ ("!" ++ w) []).
    apply (MatchConcat _ _ _ _ [] []); [constructor |].
    apply all_Match_plus; assumption.
Qed.

(** What [find_command] finds. *)
Lemma find_command_spec (v : string) (caps : list string) :
  find_command v = v :: caps <->
  exists w, w <> "" /\ all lower w = true
            /\ v = "<p>!" ++ w ++ "</p>" /\ caps = [String "!" w].
Proof.
  unfold find_command. split.
  - destruct (strip "<p>!" v) as [rest |] eqn:Hs; [| discriminate].
    apply strip_Some in Hs.
    destruct (span lower rest) as [w tail] eqn:Hp.
    apply span_spec in Hp. destruct Hp as [-> Hall].
    destruct (String.eqb_spec w "") as [| Hne]; [discriminate |].
    destruct (String.eqb_spec tail "</p>") as [-> |]; [| discriminate].
    simpl. intros H. inversion H; subst.
    exists w. repeat split; auto.
  - intros (w & Hne & Hall & -> & ->).
    rewrite strip_app, (span_app lower w "</p>" Hall eq_refl).
    destruct (String.eqb_spec w "") as [| _]; [contradiction |].
    reflexivity.
Qed.

Lemma find_command_cases (v : string) :
  find_command v = [] \/ exists cmd, find_command v = [v; cmd].
Proof.
  unfold find_command.
  destruct (strip "<p>!" v) as [rest |]; [| left; reflexivity].
  destruct (span lower rest) as [w tail].
  destruct (negb (w =? "")%string && (tail =? "</p>")%string);
    [right; eauto | left; reflexivity].
Qed.

(** X1.  The compiled [commandRegexp] finds exactly what the pattern
    [^<p>(?P<command>![a-z]+)<\/p>$] matches: the result is the text followed
    by the captures of a match, and it is nil exactly when the text does not
    match; [MatchString] tells whether there is a match. *)
Theorem commandRegexp_refines_pattern (v : string) :
  (forall caps,
      Match commandPattern v caps <->
      FindStringSubmatch commandRegexp v = v :: caps)
  /\ (FindStringSubmatch commandRegexp v = [] <->
      forall caps, ~ Match commandPattern v caps)
  /\ (MatchString commandRegexp v = true <->
      exists caps, Match commandPattern v caps).
Proof.
  assert (Hiff : forall caps,
             Match commandPattern v caps <-> find_command v = v :: caps).
  { intros caps. rewrite Match_commandPattern, find_command_spec. reflexivity. }
  split; [exact Hiff |]. simpl. split.
  - split.
    + intros Hnil caps Hm. apply Hiff in Hm. congruence.
    + intros Hno. destruct (find_command_cases v) as [H | [cmd H]]; [exact H |].
      exfalso. apply (Hno [cmd]). apply Hiff. exact H.
  - split.
    + destruct (find_command_cases v) as [H | [cmd H]]; rewrite H;
        [discriminate |].
      intros _. exists [cmd]. apply Hiff. exact H.
    + intros [caps Hm]. apply Hiff in Hm. rewrite Hm. reflexivity.
Qed.

(** X2.  A text is a command exactly when it is [<p>!word</p>] for a
    non-empty word of the letters a to z; the group [command] is then
    [!word]. *)
Theorem command_texts (v : string) :
  (MatchString commandRegexp v = true <->
   exists w, w <> "" /\ all lower w = true /\ v = "<p>!" ++ w ++ "</p>")
  /\ (forall w, w <> "" -> all lower w = true ->
        FindStringSubmatch commandRegexp ("<p>!" ++ w ++ "</p>")
        = ["<p>!" ++ w ++ "</p>"; String "!" w]).
Proof.
  split.
  - simpl. split.
    + destruct (find_command_cases v) as [H | [cmd H]]; rewrite H;
        [discriminate |].
      intros _. apply find_command_spec in H.
      destruct H as (w & Hne & Hall & Hv & _). eauto.
    + intros (w & Hne & Hall & Hv).
      assert (H : find_command v = v :: [String "!" w]).
      { apply find_command_spec. exists w. auto. }
      rewrite H. reflexivity.
  - intros w Hne Hall. simpl. apply find_command_spec. exists w. auto.
Qed.

Lemma command_texts_witness :
  MatchString commandRegexp "<p>!uptime</p>" = true
  /\ FindStringSubmatch commandRegexp ("<p>!" ++ "uptime" ++ "</p>")
     = ["<p>!" ++ "uptime" ++ "</p>"; "!uptime"]
  /\ MatchString commandRegexp "<p>!Uptime</p>" = false
  /\ MatchString commandRegexp "!uptime" = false.
Proof.
  split; [reflexivity |]. split.
  - apply (proj2 (command_texts "<p>!uptime</p>") "uptime");
      [discriminate | reflexivity].
  - split; reflexivity.
Defined.

(** ** [parseGroupsRegexp] *)

Lemma collect_nil (subexpNames : list string) (i : nat) (r : Groups) :
  collect i subexpNames [] r = Done r.
Proof.
  revert i. induction subexpNames as [| name rest IH]; intros i; simpl.
  - reflexivity.
  - replace ((0 <? i) && (i <=? 0))%nat with false; [apply IH |].
    destruct i; reflexivity.
Qed.

Lemma collect_in_range (subexpNames match_ : list string) (i : nat) (r : Groups) :
  (i + length subexpNames <= length match_)%nat ->
  exists r', collect i subexpNames match_ r = Done r'.
Proof.
  revert i r. induction subexpNames as [| name rest IH]; intros i r Hlen;
    simpl in *.
  - eexists. reflexivity.
  - destruct ((0 <? i) && (i <=? length match_))%nat.
    + destruct (nth_error match_ i) as [value |] eqn:Hn.
      * apply IH. lia.
      * apply nth_error_None in Hn. lia.
    + apply IH. lia.
Qed.

Lemma collect_out_of_range (subexpNames match_ : list string) (i : nat)
    (r : Groups) :
  (0 < length match_)%nat -> (i <= length match_)%nat ->
  (length match_ < i + length subexpNames)%nat ->
  collect i subexpNames match_ r
  = IndexOutOfRange (length match_) (length match_).
Proof.
  revert i r. induction subexpNames as [| name rest IH]; intros i r Hpos Hi Hlen;
    simpl in *.
  - lia.
  - destruct (Nat.eq_dec i (length match_)) as [-> | Hne].
    + replace (0 <? length match_)%nat with true
        by (symmetry; apply Nat.ltb_lt; exact Hpos).
      rewrite Nat.leb_refl. simpl.
      replace (nth_error match_ (length match_)) with (@None string)
        by (symmetry; apply nth_error_None; lia).
      reflexivity.
    + destruct ((0 <? i) && (i <=? length match_))%nat.
      * destruct (nth_error match_ i) as [value |] eqn:Hn.
        -- apply IH; lia.
        -- apply nth_error_None in Hn. lia.
      * apply IH; lia.
Qed.

(** From a positive index on, with enough entries in the match: every
    name is given the entry at its index, a later occurrence of the same
    name overwriting an earlier one, and no other key is touched. *)
Lemma collect_spec (match_ rest : list string) (i : nat) (r : Groups) :
  (0 < i)%nat -> (i + length rest <= length match_)%nat ->
  exists r',
    collect i rest match_ r = Done r'
    /\ (forall k, ~ In k rest -> r' k = r k)
    /\ (forall j name,
          nth_error rest j = Some name ->
          (forall j', (j < j')%nat -> nth_error rest j' <> Some name) ->
          r' name = nth_error match_ (i + j)).
Proof.
  revert i r. induction rest as [| name0 rest IH]; intros i r Hi Hlen.
  - exists r. split; [reflexivity |]. split; [reflexivity |].
    intros j name Hj. destruct j; discriminate.
  - simpl in Hlen. cbn [collect].
    replace ((0 <? i) && (i <=? length match_))%nat with true.
    2:{ symmetry. apply andb_true_intro. split;
        [apply Nat.ltb_lt | apply Nat.leb_le]; lia. }
    destruct (nth_error match_ i) as [value |] eqn:Hn.
    2:{ apply nth_error_None in Hn. lia. }
    destruct (IH (S i) (set name0 value r)) as (r' & Hr & Hkeep & Hget);
      [lia | lia |].
    exists r'. split; [exact Hr |]. split.
    + intros k Hk. rewrite Hkeep.
      * unfold set. destruct (String.eqb_spec k name0) as [-> |]; [| reflexivity].
        exfalso. apply Hk. left. reflexivity.
      * intros Hin. apply Hk. right. exact Hin.
    + intros j name Hj Hlast. destruct j as [| j].
      * simpl in Hj. inversion Hj; subst name0.
        rewrite Hkeep.
        -- unfold set. rewrite String.eqb_refl, Nat.add_0_r. symmetry. exact Hn.
        -- intros Hin. apply In_nth_error in Hin. destruct Hin as [j' Hj'].
           apply (Hlast (S j')); [lia | exact Hj'].
      * simpl in Hj. rewrite (Hget j name Hj).
        -- f_equal. lia.
        -- intros j' Hlt. apply (Hlast (S j')). lia.
Qed.

(** X3.  [parseGroupsRegexp] returns the empty map when there is no match.
    When the match has one entry per name, as the library returns it, the
    map gives every group name the text at the index of the group (at the
    index of its last occurrence, should a name occur twice), and it has no
    key besides the names of the groups; the name at index 0, which stands
    for the whole match, is skipped. *)
Theorem parseGroupsRegexp_maps_names (re : Compiled) (v : string) :
  let match_ := FindStringSubmatch re v in
  let subexpNames := SubexpNames re in
  (match_ = [] -> parseGroupsRegexp re v = Done no_groups)
  /\ (length match_ = length subexpNames ->
      exists r,
        parseGroupsRegexp re v = Done r
        /\ (forall k, ~ In k (tl subexpNames) -> r k = None)
        /\ (forall j name,
              (0 < j)%nat -> nth_error subexpNames j = Some name ->
              (forall j', (j < j')%nat -> nth_error subexpNames j' <> Some name) ->
              r name = nth_error match_ j)).
Proof.
  intros match_ subexpNames. subst match_ subexpNames.
  unfold parseGroupsRegexp. split.
  - intros ->. apply collect_nil.
  - intros Hlen. destruct (SubexpNames re) as [| name0 rest].
    + exists no_groups. split; [reflexivity |]. split; [reflexivity |].
      intros j name _ Hj. destruct j; discriminate.
    + simpl in Hlen. cbn [collect tl]. simpl andb. cbv iota.
      destruct (collect_spec (FindStringSubmatch re v) rest 1 no_groups)
        as (r & Hr & Hkeep & Hget); [lia | lia |].
      exists r. split; [exact Hr |]. split; [exact Hkeep |].
      intros j name Hpos Hj Hlast. destruct j as [| j]; [lia |].
      simpl in Hj. apply (Hget j name Hj).
      intros j' Hlt. apply (Hlast (S j')). lia.
Qed.

(** A pattern with two named groups. *)
Lemma parseGroupsRegexp_maps_names_witness :
  let re :=
    mkCompiled (fun _ => true) (fun v => [v; "10"; "42"]) [""; "hour"; "minute"] in
  exists r,
    parseGroupsRegexp re "10:42" = Done r
    /\ r "hour" = Some "10" /\ r "minute" = Some "42" /\ r "" = None.
Proof.
  intros re.
  destruct (proj2 (parseGroupsRegexp_maps_names re "10:42") eq_refl)
    as (r & Hr & Hkeep & Hget).
  exists r. split; [exact Hr |]. split; [| split].
  - apply (Hget 1%nat "hour"); [lia | reflexivity |].
    intros [| [| [| j']]] Hlt; try lia; simpl; try discriminate.
    destruct j'; discriminate.
  - apply (Hget 2%nat "minute"); [lia | reflexivity |].
    intros [| [| [| j']]] Hlt; try lia; simpl; try discriminate.
    destruct j'; discriminate.
  - apply Hkeep. simpl. intros [H | [H | []]]; discriminate.
Defined.

(** X4.  For the command pattern [parseGroupsRegexp] never fails, and the
    map it returns has the key [command] exactly when the text matches, its
    value being the captured [!word]; it has no other key. *)
Theorem parseGroupsRegexp_command (v : string) :
  exists r,
    parseGroupsRegexp commandRegexp v = Done r
    /\ (forall k, k <> "command" -> r k = None)
    /\ (MatchString commandRegexp v = false -> r "command" = None)
    /\ (forall cmd,
          FindStringSubmatch commandRegexp v = [v; cmd] ->
          r "command" = Some cmd).
Proof.
  unfold parseGroupsRegexp. simpl FindStringSubmatch. simpl SubexpNames.
  simpl MatchString.
  destruct (find_command_cases v) as [H | [cmd H]]; rewrite H.
  - exists no_groups. repeat split; try discriminate.
  - exists (set "command" cmd no_groups). split; [reflexivity |]. repeat split.
    + intros k Hk. unfold set.
      destruct (String.eqb_spec k "command"); [contradiction | reflexivity].
    + discriminate.
    + intros cmd' Heq. inversion Heq. reflexivity.
Qed.

End RegexpFacts.

Module ServiceFacts.
Import Go Wire Chat Observe.
Local Open Scope io_scope.

(** ** Connecting *)

Section Connect.

Variable Conn : Type.
Variable url_Parse : string -> URL + error.
Variable dialer : URL -> Conn + error.

(** X14.  [validate] accepts a configuration exactly when the scheme and
    the host are not empty, the processing function is there and the URL
    composed of scheme, host and path parses. *)
Theorem validate_accepts_iff (config : Config) :
  validate url_Parse config = None <->
  Scheme config <> "" /\ Host config <> ""
  /\ CommandExecutorFunc config <> None
  /\ exists u,
      url_Parse (Scheme config ++ "://" ++ Host config ++ Path config) = inl u.
Proof.
  unfold validate.
  destruct (String.eqb_spec (Scheme config) "") as [Hs | Hs].
  { split; [discriminate | intros (H & _); contradiction]. }
  destruct (String.eqb_spec (Host config) "") as [Hh | Hh].
  { split; [discriminate | intros (_ & H & _); contradiction]. }
  destruct (CommandExecutorFunc config) as [f |].
  2:{ split; [discriminate | intros (_ & _ & H & _); contradiction]. }
  destruct (url_Parse _) as [u | cause].
  - split; [| reflexivity]. intros _. repeat split; auto; [discriminate | eauto].
  - split; [discriminate |]. intros (_ & _ & _ & u & H). discriminate.
Qed.

(** X15.  For a configuration that [validate] accepts, [NewChatService]
    logs the target and calls the dialer exactly once, for the URL made of
    scheme, host and path and with the header [Origin: http://localhost].
    An error of the dialer is returned as it is, without a service;
    otherwise the service holds the connection and the processing function
    of the configuration. *)
Theorem connect_valid_config (config : Config) :
  validate url_Parse config = None ->
  let u := mkURL (Scheme config) (Host config) (Path config) in
  let call := NewChatService Conn url_Parse dialer config in
  trace call
  = [Log (mkEntry DebugLevel [] (Printf "connecting to %s" [ArgURL u]));
     Dial u [("Origin", ["http://localhost"])]]
  /\ dial_calls (trace call) = 1%nat
  /\ (forall err, dialer u = inr err -> value call = (None, Some err))
  /\ (forall c, dialer u = inl c ->
        exists service,
          value call = (Some service, None)
          /\ ws Conn service = c
          /\ jobFunc Conn service = CommandExecutorFunc config).
Proof.
  intros Hv u call. subst u call. unfold NewChatService. rewrite Hv.
  rewrite !ChatFacts.trace_bind, !ChatFacts.value_bind.
  destruct (dialer _) as [c | err]; cbn [trace value fst snd emit logf ret app].
  - repeat split; try discriminate.
    intros c' H. inversion H; subst. eexists. repeat split.
  - repeat split; try discriminate.
    intros err' H. inversion H. reflexivity.
Qed.

End Connect.

Lemma validate_accepts_iff_witness :
  let parse := fun _ : string => inl (mkURL "wss" "chat.example" "/entry") : URL + error in
  validate parse (mkConfig "wss" "chat.example" "/entry" (Some (fun _ => None)))
  = None.
Proof.
  intros parse.
  apply (proj2 (validate_accepts_iff parse _)).
  repeat split; try discriminate. eexists. reflexivity.
Defined.

Lemma connect_valid_config_witness :
  let parse := fun _ : string => inl (mkURL "wss" "chat.example" "/entry") : URL + error in
  let refuse := fun _ : URL => inr (errorString "dial tcp: timeout") : unit + error in
  let config := mkConfig "wss" "chat.example" "/entry" (Some (fun _ => None)) in
  dial_calls (trace (NewChatService unit parse refuse config)) = 1%nat
  /\ value (NewChatService unit parse refuse config)
     = (None, Some (errorString "dial tcp: timeout")).
Proof.
  intros parse refuse config.
  destruct (connect_valid_config unit parse refuse config eq_refl)
    as (_ & Hd & Herr & _).
  split; [exact Hd |]. apply Herr. reflexivity.
Defined.

(** ** The read loop *)

Lemma dispatch_cases (m : Message) :
  trace (dispatch m)
  = if is_ping m then [PingCh m]
    else if is_chat m then [ChatCh m]
    else if ((Type_ m =? SYSTEM) || (Type_ m =? NAME_CHANGE))%string then []
    else [Log (unknown_type_warning m)].
Proof.
  unfold dispatch, is_ping, is_chat.
  destruct (Type_ m =? PING)%string; [reflexivity |].
  destruct (Type_ m =? CHAT)%string; [reflexivity |].
  destruct (Type_ m =? SYSTEM)%string; [reflexivity |].
  destruct (Type_ m =? NAME_CHANGE)%string; reflexivity.
Qed.

Lemma done_closed_app (t1 t2 : list Event) :
  done_closed (t1 ++ t2) = (done_closed t1 + done_closed t2)%nat.
Proof.
  induction t1 as [| e t1 IH]; [reflexivity |].
  destruct e; simpl; rewrite IH; reflexivity.
Qed.

Lemma logged_app (t1 t2 : list Event) :
  logged (t1 ++ t2) = (logged t1 ++ logged t2)%list.
Proof.
  induction t1 as [| e t1 IH]; [reflexivity |].
  destruct e; simpl; rewrite IH; reflexivity.
Qed.

Lemma enqueued_app (t1 t2 : list Event) :
  enqueued (t1 ++ t2) = (enqueued t1 ++ enqueued t2)%list.
Proof.
  induction t1 as [| e t1 IH]; [reflexivity |].
  destruct e; simpl; rewrite IH; reflexivity.
Qed.

(** The loop as long as the reads succeed. *)
Lemma trace_listenRead_oks (oks : list Message) (rest : list ReadResult) :
  trace (listenRead (map ReadOk oks ++ rest))
  = (trace (listenRead (map ReadOk oks)) ++ trace (listenRead rest))%list.
Proof.
  induction oks as [| m oks IH]; [reflexivity |].
  cbn [map app]. rewrite !ChatFacts.trace_listenRead_ok, IH.
  cbn [app]. rewrite <- !app_assoc. reflexivity.
Qed.

Lemma done_open_while_reading (oks : list Message) :
  done_closed (trace (listenRead (map ReadOk oks))) = 0%nat.
Proof.
  induction oks as [| m oks IH]; [reflexivity |].
  cbn [map]. rewrite ChatFacts.trace_listenRead_ok. cbn [done_closed].
  rewrite done_closed_app, IH, dispatch_cases.
  destruct (is_ping m); [reflexivity |].
  destruct (is_chat m); [reflexivity |].
  destruct (_ || _); reflexivity.
Qed.

Lemma no_error_while_reading (oks : list Message) :
  filter (is_level ErrorLevel) (logged (trace (listenRead (map ReadOk oks)))) = [].
Proof.
  induction oks as [| m oks IH]; [reflexivity |].
  cbn [map]. rewrite ChatFacts.trace_listenRead_ok. cbn [logged filter].
  rewrite logged_app, filter_app, IH, dispatch_cases.
  destruct (is_ping m); [reflexivity |].
  destruct (is_chat m); [reflexivity |].
  destruct (_ || _); reflexivity.
Qed.

(** X16.  The read loop ends at the first read that fails: what the
    connection would deliver afterwards is never read, and [doneCh], left
    open until then, is closed exactly once, as the last action of the
    loop. *)
Theorem read_loop_ends_at_first_error (oks : list Message) (m : Message)
    (err : error) (rest : list ReadResult) :
  let before := trace (listenRead (map ReadOk oks)) in
  let whole := trace (listenRead (map ReadOk oks ++ ReadErr m err :: rest)) in
  whole = (before ++ closing m err)%list
  /\ last whole Select = CloseDoneCh
  /\ done_closed before = 0%nat
  /\ done_closed whole = 1%nat.
Proof.
  intros before whole. subst before whole.
  rewrite trace_listenRead_oks, ChatFacts.trace_listenRead_err.
  fold (closing m err). split; [reflexivity |]. split; [| split].
  - unfold closing. rewrite !app_assoc. apply last_last.
  - apply done_open_while_reading.
  - rewrite done_closed_app, done_open_while_reading. unfold closing.
    destruct (unexpected err); reflexivity.
Qed.

(** The errors that end the loop in silence. *)
Lemma unexpected_false_iff (err : error) :
  unexpected err = false <-> exists reason, err = CloseError 1000 reason.
Proof.
  unfold unexpected. destruct err as [s | code reason | format cause]; simpl.
  - split; [discriminate | intros [r H]; discriminate].
  - unfold CloseNormalClosure. destruct (Z.eqb_spec code 1000) as [-> | Hne].
    + split; [eauto | reflexivity].
    + split; [discriminate |]. intros [r H]. inversion H. contradiction.
  - split; [discriminate | intros [r H]; discriminate].
Qed.

(** X17.  A read loop ended by the close error of a normal closure (code
    1000) logs no error.  Ended by anything else, a close error with another
    code included, it logs that error once, with the body and the type that
    the message being read holds. *)
Theorem read_error_logged_unless_normal_closure (oks : list Message)
    (m : Message) (err : error) (rest : list ReadResult) :
  let errors :=
    filter (is_level ErrorLevel)
      (logged (trace (listenRead (map ReadOk oks ++ ReadErr m err :: rest)))) in
  ((exists reason, err = CloseError 1000 reason) -> errors = [])
  /\ ((forall reason, err <> CloseError 1000 reason) ->
      errors = [mkEntry ErrorLevel [("body", Body m); ("type", Type_ m)]
                  (Println [ArgError err])]).
Proof.
  intros errors. subst errors.
  rewrite trace_listenRead_oks, ChatFacts.trace_listenRead_err.
  rewrite logged_app, filter_app, no_error_while_reading. cbn [app].
  split.
  - intros H. apply unexpected_false_iff in H. rewrite H. reflexivity.
  - intros H. destruct (unexpected err) eqn:Hu; [reflexivity |].
    apply unexpected_false_iff in Hu. destruct Hu as [reason Hr].
    exfalso. apply (H reason Hr).
Qed.

(** X18.  The read loop hands over exactly the PING and CHAT messages it
    decodes, in the order of reading, and logs one debug line per decoded
    message. *)
Theorem read_loop_hands_over_in_order (reads : list ReadResult) :
  enqueued (trace (listenRead reads))
  = filter (fun m => is_ping m || is_chat m) (received reads)
  /\ filter (is_level DebugLevel) (logged (trace (listenRead reads)))
     = map received_line (received reads).
Proof.
  induction reads as [| r rest [IH1 IH2]]; [split; reflexivity |].
  destruct r as [m | m err].
  - rewrite ChatFacts.trace_listenRead_ok. cbn [received enqueued logged filter map].
    rewrite enqueued_app, logged_app, filter_app, IH1, IH2, dispatch_cases.
    change (is_level DebugLevel (received_line m)) with true. cbv iota.
    destruct (is_ping m); [split; reflexivity |].
    destruct (is_chat m); [split; reflexivity |].
    destruct (_ || _); split; reflexivity.
  - rewrite ChatFacts.trace_listenRead_err. cbn [received filter map].
    destruct (unexpected err); split; reflexivity.
Qed.

Lemma read_error_logged_unless_normal_closure_witness :
  let chat := mkMessage "alice" "hello" "1" CHAT true zeroTime in
  let partial := mkMessage "" "half" "" CHAT false zeroTime in
  filter (is_level ErrorLevel)
    (logged (trace (listenRead
       (map ReadOk [chat] ++ ReadErr zeroMessage (CloseError 1000 "") :: []))))
  = []
  /\ filter (is_level ErrorLevel)
       (logged (trace (listenRead
          (map ReadOk [chat] ++ ReadErr partial (CloseError 1006 "unexpected EOF") :: []))))
     = [mkEntry ErrorLevel [("body", "half"); ("type", "CHAT")]
          (Println [ArgError (CloseError 1006 "unexpected EOF")])].
Proof.
  intros chat partial. split.
  - apply (proj1 (read_error_logged_unless_normal_closure [chat] zeroMessage
                    (CloseError 1000 "") [])).
    eexists. reflexivity.
  - apply (proj2 (read_error_logged_unless_normal_closure [chat] partial
                    (CloseError 1006 "unexpected EOF") [])).
    intros reason H. discriminate H.
Defined.

(** ** The write loop *)

Section Writing.

Variable Conn : Type.
Variable c : ChatService Conn.

Lemma writeStep_continues (t : Turn) :
  value (writeStep Conn c t) = negb (is_done t).
Proof.
  destruct t as [[ | m | input] w]; unfold is_done; cbn [selected negb].
  - reflexivity.
  - apply (ChatFacts.writeStep_ping Conn c m w).
  - reflexivity.
Qed.

(** Before the turn of [doneCh], each turn is one write of the loop or one
    goroutine. *)
Lemma writeStep_one_action (t : Turn) :
  is_done t = false ->
  (length (outbound (trace (writeStep Conn c t)))
   + length (spawned (trace (writeStep Conn c t))))%nat = 1%nat.
Proof.
  destruct t as [[ | m | input] [e |]]; unfold is_done; cbn [selected];
    try discriminate; reflexivity.
Qed.

Lemma outbound_app (t1 t2 : list Event) :
  outbound (t1 ++ t2) = (outbound t1 ++ outbound t2)%list.
Proof.
  induction t1 as [| e t1 IH]; [reflexivity |].
  destruct e; simpl; rewrite IH; reflexivity.
Qed.

Lemma spawned_app (t1 t2 : list Event) :
  spawned (t1 ++ t2) = (spawned t1 ++ spawned t2)%list.
Proof.
  induction t1 as [| e t1 IH]; [reflexivity |].
  destruct e; simpl; rewrite IH; reflexivity.
Qed.

(** X19.  The write loop returns at the turn of [doneCh]: whatever would
    be ready afterwards is not served.  Until then every turn gives rise to
    exactly one action, a PONG written by the loop or a goroutine
    started. *)
Theorem write_loop_ends_at_done (before : list Turn) (w : option error)
    (rest : list Turn) :
  forallb (fun t => negb (is_done t)) before = true ->
  let t := trace (listenWrite Conn c (before ++ mkTurn FromDone w :: rest)) in
  t = trace (listenWrite Conn c before)
  /\ (length (outbound t) + length (spawned t))%nat = length before.
Proof.
  intros Hb t. subst t.
  induction before as [| x before IH].
  - split; reflexivity.
  - cbn [forallb] in Hb. apply andb_prop in Hb. destruct Hb as [Hx Hb].
    destruct (IH Hb) as [IH1 IH2]. cbn [app].
    rewrite !ChatFacts.trace_listenWrite_cons, writeStep_continues, Hx, IH1.
    split; [reflexivity |].
    rewrite outbound_app, spawned_app, !length_app. rewrite <- IH1.
    apply negb_true_iff in Hx.
    pose proof (writeStep_one_action x Hx) as Hone. cbn [length]. lia.
Qed.

(** The goroutines of a session are the tasks of chat messages. *)
Lemma spawned_session (reads : list ReadResult) (answers : list (option error))
    (body : list Event) :
  In body (spawned (session Conn c reads answers)) ->
  exists input w, body = trace (chatTask Conn c input w).
Proof.
  revert answers. induction reads as [| r rest IH]; intros answers.
  - intros [].
  - destruct r as [m | m err].
    + destruct (is_ping m) eqn:Hp.
      * rewrite (ChatFacts.session_ping Conn c m rest answers Hp), spawned_app.
        destruct (ChatFacts.writeStep_ping Conn c m (hd None answers)) as [_ ->].
        intros Hin. apply in_app_or in Hin. destruct Hin as [Hin | Hin].
        -- destruct (hd None answers); destruct Hin.
        -- apply (IH (tl answers) Hin).
      * destruct (is_chat m) eqn:Hc.
        -- rewrite (ChatFacts.session_chat Conn c m rest answers Hp Hc).
           cbn [spawned]. intros [<- | Hin]; [eauto |].
           apply (IH (tl answers) Hin).
        -- rewrite (ChatFacts.session_other Conn c m rest answers Hp Hc).
           apply IH.
    + rewrite ChatFacts.session_failed_read. intros [].
Qed.

End Writing.

(** X21.  In a session of a service made by [NewChatService] no goroutine
    calls a nil function: the check of [validate] on the processing function
    is what the write loop relies on. *)
Theorem connected_service_never_panics (Conn : Type)
    (url_Parse : string -> URL + error) (dialer : URL -> Conn + error)
    (config : Config) (c : ChatService Conn) (err : option error)
    (reads : list ReadResult) (answers : list (option error))
    (body : list Event) :
  value (NewChatService Conn url_Parse dialer config) = (Some c, err) ->
  In body (spawned (session Conn c reads answers)) ->
  panics body = false.
Proof.
  intros Hnew Hin.
  destruct (ChatFacts.NewChatService_jobFunc Conn url_Parse dialer config c err
              Hnew) as [f Hf].
  destruct (spawned_session Conn c reads answers body Hin) as (input & w & ->).
  rewrite (ChatFacts.chatTask_trace Conn c f input w Hf).
  destruct (f input) as [output |]; [| reflexivity].
  destruct w; reflexivity.
Qed.

Lemma write_loop_ends_at_done_witness :
  let c := mkChatService unit tt make_chan make_chan (Some (fun _ => None)) make_chan in
  let chat := mkMessage "alice" "hello" "1" CHAT true zeroTime in
  let before := [mkTurn (FromPing (ofType PING)) None; mkTurn (FromChat chat) None] in
  trace (listenWrite unit c
           (before ++ mkTurn FromDone None :: [mkTurn (FromPing (ofType PING)) None]))
  = trace (listenWrite unit c before).
Proof.
  intros c chat before.
  apply (write_loop_ends_at_done unit c before None
           [mkTurn (FromPing (ofType PING)) None] eq_refl).
Defined.

Lemma connected_service_never_panics_witness :
  let parse := fun _ : string => inl (mkURL "wss" "chat.example" "/entry") : URL + error in
  let dialer := fun _ : URL => inl tt : unit + error in
  let config := mkConfig "wss" "chat.example" "/entry" (Some (fun _ => None)) in
  let c := mkChatService unit tt make_chan make_chan (Some (fun _ => None)) make_chan in
  let chat := mkMessage "alice" "hello" "1" CHAT true zeroTime in
  panics [JobFunc chat] = false.
Proof.
  intros parse dialer config c chat.
  apply (connected_service_never_panics unit parse dialer config c None
           [ReadOk chat] [] [JobFunc chat] eq_refl).
  left. reflexivity.
Defined.

End ServiceFacts.

Module MoreFacts.
Import Go Wire Placeholder Commands Observe.

(** ** The wire form *)

(** X22.  For a message whose texts are valid UTF-8, decoding the
    encoding gives the message back, all six fields, whenever the message
    can be encoded and the text of its instant reads back as that instant;
    fields left out of the encoding come back as their zero value.  (A text
    that is not valid UTF-8 does not come back: the encoder replaces the
    offending bytes.) *)
Theorem encode_decode_round_trip (parseTime : string -> option Time)
    (m : Message) (o : JObject) :
  valid_texts m = true ->
  Marshal m = inl o ->
  parseTime (formatRFC3339Nano (Timestamp m)) = Some (Timestamp m) ->
  decode parseTime o = Some m.
Proof.
  intros _. apply WireFacts.decode_Marshal.
Qed.

Lemma encode_decode_round_trip_witness :
  let sent := mkTime (62135596800 + 1709210096) 120000000 7200 in
  let parseTime := fun s : string =>
    if (s =? "2024-02-29T14:34:56.12+02:00")%string then Some sent else None in
  let m := mkMessage "alice" "<p>!uptime</p>" "42" "CHAT" true sent in
  exists o, Marshal m = inl o /\ decode parseTime o = Some m.
Proof.
  intros sent parseTime m.
  exists [("author", JString "alice"); ("body", JString "<p>!uptime</p>");
          ("id", JString "42"); ("type", JString "CHAT");
          ("visible", JBool true);
          ("timestamp", JString "2024-02-29T14:34:56.12+02:00")].
  assert (Hm : Marshal m
               = inl [("author", JString "alice"); ("body", JString "<p>!uptime</p>");
                      ("id", JString "42"); ("type", JString "CHAT");
                      ("visible", JBool true);
                      ("timestamp", JString "2024-02-29T14:34:56.12+02:00")])
    by (vm_compute; reflexivity).
  split; [exact Hm |].
  apply (encode_decode_round_trip parseTime m _ eq_refl Hm).
  vm_compute. reflexivity.
Defined.

(** ** The server status *)

Section Status.

Variable network : nat -> Response.
Variable Decode : string -> ServerStatus + error.

(** A lookup without cache sends one request and closes the body of the
    response, if there is one. *)
Lemma getServerStatus_uncached (w : World) :
  serverStatus w = None ->
  let '(r, w') := getServerStatus network Decode w in
  requested w' = (requested w ++ [status_url])%list
  /\ closed w'
     = (closed w + match network (length (requested w)) with
                   | GetBody _ => 1
                   | GetFailed _ => 0
                   end)%nat
  /\ errorlns w' = errorlns w
  /\ match r with
     | inl ss => serverStatus w' = Some ss
     | inr _ => serverStatus w' = None
     end.
Proof.
  intros Hc. unfold getServerStatus. rewrite Hc.
  destruct (network (length (requested w))) as [err | content].
  - cbn. rewrite Nat.add_0_r. repeat split. exact Hc.
  - destruct (Decode content) as [ss | err]; cbn;
      rewrite Nat.add_1_r; repeat split. exact Hc.
Qed.

Lemma getServerStatus_no_status (w : World) :
  serverStatus w = None ->
  no_status network Decode (length (requested w)) ->
  exists err w',
    getServerStatus network Decode w = (inr err, w')
    /\ serverStatus w' = None
    /\ requested w' = (requested w ++ [status_url])%list.
Proof.
  intros Hc Hno. unfold no_status in Hno. unfold getServerStatus. rewrite Hc.
  destruct (network (length (requested w))) as [err | content].
  - eexists. eexists. split; [reflexivity |]. split; [exact Hc | reflexivity].
  - destruct Hno as [err He]. rewrite He.
    eexists. eexists. split; [reflexivity |]. split; [exact Hc | reflexivity].
Qed.

(** X23.  A lookup that fails is not remembered: as long as the requests
    fail or their bodies do not decode, every call, lookup or uptime, sends
    a new request; the lookups return errors and the uptimes are empty. *)
Theorem failed_lookups_are_retried (calls : list Call) (w : World) :
  serverStatus w = None ->
  (forall k, no_status network Decode k) ->
  serverStatus (snd (run network Decode calls w)) = None
  /\ requested (snd (run network Decode calls w))
     = (requested w ++ repeat status_url (length calls))%list
  /\ Forall (fun r => match r with
                      | Status (inl _) => False
                      | Status (inr _) => True
                      | Text s => s = ""
                      end)
       (fst (run network Decode calls w)).
Proof.
  intros Hc Hno. revert w Hc.
  induction calls as [| c rest IH]; intros w Hc.
  - cbn. rewrite app_nil_r. repeat split; [exact Hc | constructor].
  - destruct (getServerStatus_no_status w Hc (Hno _))
      as (err & w1 & Hg & Hc1 & Hr1).
    cbn [run]. destruct c as [| now]; cbn [call]; unfold Uptime; rewrite Hg.
    + destruct (IH w1 Hc1) as (IHc & IHr & IHf).
      destruct (run network Decode rest w1) as [rs w2]. cbn [fst snd] in *.
      rewrite IHr, Hr1, <- app_assoc. repeat split; [exact IHc |].
      constructor; [exact I | exact IHf].
    + destruct (IH (Errorln err w1) Hc1) as (IHc & IHr & IHf).
      destruct (run network Decode rest (Errorln err w1)) as [rs w2].
      cbn [fst snd] in *. cbn [Errorln requested] in IHr.
      rewrite IHr, Hr1, <- app_assoc. repeat split; [exact IHc |].
      constructor; [reflexivity | exact IHf].
Qed.

Lemma responses_app (k n1 n2 : nat) :
  responses network k (n1 + n2)
  = (responses network k n1 + responses network (k + n1) n2)%nat.
Proof.
  revert k. induction n1 as [| n1 IH]; intros k; cbn [responses Nat.add].
  - rewrite Nat.add_0_r. reflexivity.
  - rewrite IH. replace (S k + n1)%nat with (k + S n1)%nat by lia. lia.
Qed.

(** One call: at most one request, and the body of its response closed. *)
Lemma call_requests (c : Call) (w : World) :
  exists n,
    (n <= 1)%nat
    /\ requested (snd (call network Decode c w))
       = (requested w ++ repeat status_url n)%list
    /\ closed (snd (call network Decode c w))
       = (closed w + responses network (length (requested w)) n)%nat.
Proof.
  assert (Hg : exists n,
             (n <= 1)%nat
             /\ requested (snd (getServerStatus network Decode w))
                = (requested w ++ repeat status_url n)%list
             /\ closed (snd (getServerStatus network Decode w))
                = (closed w + responses network (length (requested w)) n)%nat).
  { destruct (serverStatus w) as [ss |] eqn:Hc.
    - exists 0%nat. unfold getServerStatus. rewrite Hc. cbn.
      rewrite app_nil_r, Nat.add_0_r. repeat split. lia.
    - exists 1%nat. pose proof (getServerStatus_uncached w Hc) as H.
      destruct (getServerStatus network Decode w) as [r w'].
      destruct H as (Hr & Hcl & _). cbn [snd responses repeat].
      rewrite Hr, Hcl, Nat.add_0_r. split; [lia |]. split; reflexivity. }
  destruct Hg as (n & Hn & Hr & Hcl). exists n.
  destruct c as [| now]; cbn [call]; unfold Uptime;
    destruct (getServerStatus network Decode w) as [[ss | err] w'];
    cbn [snd Errorln requested closed] in *; auto.
Qed.

(** X24.  Whatever the calls and the answers of the network, each call
    sends at most one request, always to [/api/status] of the server, and
    the body of every response received is closed: the number of bodies
    closed grows by the number of responses among the answers to the new
    requests. *)
Theorem every_response_body_is_closed (calls : list Call) (w : World) :
  exists n,
    (n <= length calls)%nat
    /\ requested (snd (run network Decode calls w))
       = (requested w ++ repeat status_url n)%list
    /\ closed (snd (run network Decode calls w))
       = (closed w + responses network (length (requested w)) n)%nat.
Proof.
  revert w. induction calls as [| c rest IH]; intros w.
  - exists 0%nat. cbn. rewrite app_nil_r, Nat.add_0_r. repeat split. lia.
  - destruct (call_requests c w) as (n1 & Hn1 & Hr1 & Hc1).
    cbn [run]. destruct (call network Decode c w) as [r w1]. cbn [snd] in *.
    destruct (IH w1) as (n2 & Hn2 & Hr2 & Hc2).
    destruct (run network Decode rest w1) as [rs w2]. cbn [snd] in *.
    exists (n1 + n2)%nat. split; [cbn [length]; lia |]. split.
    + rewrite Hr2, Hr1, <- app_assoc, repeat_app. reflexivity.
    + rewrite Hc2, Hc1, Hr1, length_app, repeat_length, responses_app. lia.
Qed.

(** X25.  A status whose [LastConnectTime] is the zero instant, as it is
    decoded when the server gives none, makes [Uptime] report the largest
    duration there is: for any present later than some 292 years after the
    zero instant the text is [2562047h47m16s]. *)
Theorem uptime_of_zero_connect_time (now : Time) (w : World) (ss : ServerStatus) :
  serverStatus w = Some ss ->
  LastConnectTime ss = zeroTime ->
  9223372037 <= sec now -> 0 <= nsec now ->
  fst (Uptime network Decode now w) = "2562047h47m16s".
Proof.
  intros Hc Hz Hs Hn.
  rewrite (PlaceholderFacts.Uptime_cached network Decode now w ss Hc), Hz.
  cbn [fst].
  assert (Hsub : Sub now zeroTime = maxDuration).
  { unfold Sub, zeroTime, minDuration, maxDuration, Second. cbn [sec nsec].
    destruct (Z.ltb_spec ((sec now - 0) * 1000000000 + (nsec now - 0))
                (- 2 ^ 63)); [lia |].
    destruct (Z.ltb_spec (2 ^ 63 - 1)
                ((sec now - 0) * 1000000000 + (nsec now - 0))); [reflexivity | lia]. }
  rewrite Hsub. vm_compute. reflexivity.
Qed.

End Status.

Lemma failed_lookups_are_retried_witness :
  let network := fun _ : nat => GetFailed (errorString "connection refused") in
  let decode := fun _ : string =>
    inr (errorString "unexpected end of JSON input") : ServerStatus + error in
  let w := mkWorld None [] 0 [] in
  requested (snd (run network decode [CallUptime zeroTime; CallGetServerStatus] w))
  = [status_url; status_url].
Proof.
  intros network decode w.
  destruct (failed_lookups_are_retried network decode
              [CallUptime zeroTime; CallGetServerStatus] w eq_refl)
    as (_ & H & _).
  - intros k. exact I.
  - exact H.
Defined.

(** The present taken at 2024-02-29T12:34:56Z. *)
Lemma uptime_of_zero_connect_time_witness :
  let offline := mkServerStatus false 0 10 0 zeroTime zeroTime "0.0.6" in
  let network := fun _ : nat => GetBody "status" in
  let decode := fun _ : string => inl offline : ServerStatus + error in
  fst (Uptime network decode (mkTime (62135596800 + 1709210096) 0 0)
         (mkWorld (Some offline) [status_url] 1 []))
  = "2562047h47m16s".
Proof.
  intros offline network decode.
  apply (uptime_of_zero_connect_time network decode
           (mkTime (62135596800 + 1709210096) 0 0)
           (mkWorld (Some offline) [status_url] 1 []) offline);
    [reflexivity | reflexivity | cbn [sec]; lia | cbn [nsec]; lia].
Defined.

(** ** Loading the commands *)

(** [ReadCommandsFromFile] returns commands without an error exactly when
    the file is read and its content parses; the commands are then those of
    the document, in its order. *)
Lemma commands_loaded_iff (ReadFile : string -> string + error)
    (Unmarshal : string -> commandFile + error) (file : string)
    (commands : list (option Command)) :
  ReadCommandsFromFile ReadFile Unmarshal file = Commands.Returns (commands, None)
  <->
  exists data f,
    ReadFile file = inl data /\ Unmarshal data = inl f /\ commands = File f.
Proof.
  unfold ReadCommandsFromFile. split.
  - destruct (ReadFile file) as [data | err] eqn:Hr; [| discriminate].
    destruct (Unmarshal data) as [f | err] eqn:Hu; [| discriminate].
    intros H. inversion H. exists data, f. auto.
  - intros (data & f & -> & -> & ->). reflexivity.
Qed.

Lemma commands_loaded_iff_witness :
  let doc := mkCommandFile [Some (mkCommand "!uptime" "Live for {{ uptime }}")] in
  let ReadFile := fun _ : string => inl "commands: ..." : string + error in
  let Unmarshal := fun _ : string => inl doc : commandFile + error in
  ReadCommandsFromFile ReadFile Unmarshal "commands.yml"
  = Commands.Returns ([Some (mkCommand "!uptime" "Live for {{ uptime }}")], None).
Proof.
  intros doc ReadFile Unmarshal.
  apply (proj2 (commands_loaded_iff ReadFile Unmarshal "commands.yml" _)).
  exists "commands: ...", doc. repeat split.
Defined.

End MoreFacts.

Module MainFacts.
Import Go Wire Chat Commands Regexp Template Observe Main.

(** ** The loop over the commands *)

Lemma search_Found_iff (cs : list (option Command)) (v : string) (c : Command) :
  search cs v = Found c <->
  exists before after,
    cs = (map Some before ++ Some c :: after)%list
    /\ Forall (fun p => Trigger p <> v) before
    /\ Trigger c = v.
Proof.
  split.
  - induction cs as [| [c0 |] rest IH]; simpl; try discriminate.
    destruct (String.eqb_spec (Trigger c0) v) as [Heq | Hne].
    + intros H. inversion H; subst. exists [], rest. repeat split. constructor.
    + intros H. destruct (IH H) as (before & after & -> & Hb & Ht).
      exists (c0 :: before), after. repeat split; [constructor; assumption | exact Ht].
  - intros (before & after & -> & Hb & Ht).
    induction Hb as [| p before Hp Hb IH]; simpl.
    + rewrite Ht, String.eqb_refl. reflexivity.
    + destruct (String.eqb_spec (Trigger p) v); [contradiction | exact IH].
Qed.

Lemma search_NilEntry_iff (cs : list (option Command)) (v : string) :
  search cs v = NilEntry <->
  exists before after,
    cs = (map Some before ++ None :: after)%list
    /\ Forall (fun p => Trigger p <> v) before.
Proof.
  split.
  - induction cs as [| [c0 |] rest IH]; simpl; try discriminate.
    + destruct (String.eqb_spec (Trigger c0) v) as [Heq | Hne]; [discriminate |].
      intros H. destruct (IH H) as (before & after & -> & Hb).
      exists (c0 :: before), after. split; [reflexivity |].
      constructor; assumption.
    + intros _. exists [], rest. split; [reflexivity | constructor].
  - intros (before & after & -> & Hb).
    induction Hb as [| p before Hp Hb IH]; simpl; [reflexivity |].
    destruct (String.eqb_spec (Trigger p) v); [contradiction | exact IH].
Qed.

Lemma search_NotFound_iff (cs : list (option Command)) (v : string) :
  search cs v = NotFound <->
  exists all, cs = map Some all /\ Forall (fun p => Trigger p <> v) all.
Proof.
  split.
  - induction cs as [| [c0 |] rest IH]; simpl; try discriminate.
    + intros _. exists []. split; [reflexivity | constructor].
    + destruct (String.eqb_spec (Trigger c0) v) as [Heq | Hne]; [discriminate |].
      intros H. destruct (IH H) as (all & -> & Ha).
      exists (c0 :: all). split; [reflexivity | constructor; assumption].
  - intros (all & -> & Ha).
    induction Ha as [| p all Hp Ha IH]; simpl; [reflexivity |].
    destruct (String.eqb_spec (Trigger p) v); [contradiction | exact IH].
Qed.

(** X9.  What the loop over [commands] comes to for a trigger [v].  It
    stops at the first command with that trigger, provided every entry
    before it is a command; it finds nothing when all entries are commands
    with other triggers; and it dereferences a nil pointer when a nil entry
    comes before any command with the trigger.  What follows the entry it
    stops at plays no part. *)
Theorem lookup_stops_at_first (commands after : list (option Command))
    (before : list Command) (v : string) :
  Forall (fun p => Trigger p <> v) before ->
  (forall c, Trigger c = v ->
     lookup (map Some before ++ Some c :: after) v = Found c)
  /\ lookup (map Some before ++ None :: after) v = NilEntry
  /\ lookup (map Some before) v = NotFound
  /\ (forall c, lookup commands v = Found c ->
        Trigger c = v /\ In (Some c) commands).
Proof.
  intros Hb. unfold lookup. repeat split.
  - intros c Hc. apply search_Found_iff. exists before, after. auto.
  - apply search_NilEntry_iff. exists before, after. auto.
  - apply search_NotFound_iff. exists before. auto.
  - apply search_Found_iff in H. destruct H as (b & a & _ & _ & Ht). exact Ht.
  - apply search_Found_iff in H. destruct H as (b & a & -> & _ & _).
    apply in_or_app. right. left. reflexivity.
Qed.

Lemma lookup_stops_at_first_witness :
  let discord := mkCommand "!discord" "Join us" in
  let first := mkCommand "!uptime" "first" in
  let second := mkCommand "!uptime" "second" in
  lookup (map Some [discord] ++ Some first :: [Some second]) "!uptime"
  = Found first
  /\ lookup (map Some [discord] ++ None :: [Some first]) "!uptime" = NilEntry.
Proof.
  intros discord first second.
  assert (Hb : Forall (fun p => Trigger p <> "!uptime") [discord]).
  { constructor; [discriminate | constructor]. }
  split.
  - apply (proj1 (lookup_stops_at_first [] [Some second] [discord] "!uptime" Hb)).
    reflexivity.
  - apply (proj1 (proj2 (lookup_stops_at_first [] [Some first] [discord]
                           "!uptime" Hb))).
Defined.

(** ** [processMessageCommand] *)

Section Process.

Variable commands : list (option Command).
Variable Parse : Command -> Parsed.

Lemma MatchString_find (v : string) :
  MatchString commandRegexp v
  = match find_command v with [] => false | _ => true end.
Proof. reflexivity. Qed.

(** A text that is not a command. *)
Lemma process_not_command (input : Message) :
  find_command (Body input) = [] ->
  processMessageCommand commands Parse input
  = (Answered None,
     [Logged (mkEntry TraceLevel [("id", ID input)]
                (Printf "Received message %s" [ArgString (Body input)]));
      Logged (mkEntry TraceLevel []
                (Printf "message %q is not a command: %q"
                   [ArgString (ID input); ArgString (Body input)]))]).
Proof.
  intros H. unfold processMessageCommand. rewrite MatchString_find, H.
  reflexivity.
Qed.

(** A text that is a command: everything turns on the loop over the
    commands. *)
Lemma process_command (input : Message) (cmd : string) :
  find_command (Body input) = [Body input; cmd] ->
  processMessageCommand commands Parse input
  = let received :=
      Logged (mkEntry TraceLevel [("id", ID input)]
                (Printf "Received message %s" [ArgString (Body input)])) in
    match lookup commands cmd with
    | NilEntry => (Panicked, [received])
    | NotFound =>
        (Answered None,
         [received;
          Logged (mkEntry TraceLevel []
                    (Printf "%q: command not found" [ArgString cmd]))])
    | Found command =>
        let running :=
          Logged (mkEntry DebugLevel []
                    (Printf "running command %q" [ArgString cmd])) in
        match Parse command with
        | Panics _ => (Panicked, [received; running; Parsing command])
        | Returns _ (Some err) =>
            (Answered None,
             [received; running; Parsing command;
              Logged (mkEntry ErrorLevel [] (Println [ArgError err]))])
        | Returns r None =>
            (Answered
               (Some (mkMessage BotName ("@" ++ Author input ++ " " ++ r)
                        "" CHAT false zeroTime)),
             [received; running; Parsing command])
        end
    end.
Proof.
  intros H. unfold processMessageCommand, parseGroupsRegexp.
  rewrite MatchString_find. cbn [FindStringSubmatch SubexpNames commandRegexp].
  rewrite H. reflexivity.
Qed.

(** When there is an answer, and what it is. *)
Lemma answered_spec (input output : Message) :
  fst (processMessageCommand commands Parse input) = Answered (Some output)
  <->
  exists w command r,
    w <> "" /\ all lower w = true
    /\ Body input = "<p>!" ++ w ++ "</p>"
    /\ lookup commands (String "!" w) = Found command
    /\ Parse command = Returns r None
    /\ output = mkMessage "Bot" ("@" ++ Author input ++ " " ++ r) "" "CHAT"
                  false zeroTime.
Proof.
  split.
  - destruct (RegexpFacts.find_command_cases (Body input)) as [H | [cmd H]].
    + rewrite (process_not_command input H). discriminate.
    + rewrite (process_command input cmd H). cbv zeta.
      apply RegexpFacts.find_command_spec in H.
      destruct H as (w & Hne & Hall & Hv & Hc). inversion Hc; subst cmd.
      destruct (lookup commands (String "!" w)) as [command | |] eqn:Hl;
        try discriminate.
      destruct (Parse command) as [e | r [err |]] eqn:Hp; try discriminate.
      simpl. intros Ho. inversion Ho; subst.
      exists w, command, r. repeat split; auto.
  - intros (w & command & r & Hne & Hall & Hv & Hl & Hp & ->).
    assert (H : find_command (Body input) = [Body input; String "!" w]).
    { apply RegexpFacts.find_command_spec. exists w. auto. }
    rewrite (process_command input _ H). cbv zeta. rewrite Hl, Hp. reflexivity.
Qed.

(** X5.  [processMessageCommand] answers exactly when the body is
    [<p>!word</p>], the list of commands has a command with the trigger
    [!word] before which every entry is a command (not nil) with another
    trigger, and rendering that command succeeds with a text [r]; the answer
    is then the chat message of the bot whose body is [@author r], every
    other field being at its zero value. *)
Theorem process_answers_iff (input output : Message) :
  fst (processMessageCommand commands Parse input) = Answered (Some output)
  <->
  exists w before command after r,
    w <> "" /\ all lower w = true
    /\ Body input = "<p>!" ++ w ++ "</p>"
    /\ commands = (map Some before ++ Some command :: after)%list
    /\ Forall (fun p => Trigger p <> String "!" w) before
    /\ Trigger command = String "!" w
    /\ Parse command = Returns r None
    /\ output = mkMessage "Bot" ("@" ++ Author input ++ " " ++ r) "" "CHAT"
                  false zeroTime.
Proof.
  rewrite answered_spec. split.
  - intros (w & command & r & Hne & Hall & Hv & Hl & Hp & Ho).
    apply search_Found_iff in Hl. destruct Hl as (before & after & Hc & Hb & Ht).
    exists w, before, command, after, r. repeat split; auto.
  - intros (w & before & command & after & r & Hne & Hall & Hv & Hc & Hb & Ht
            & Hp & Ho).
    exists w, command, r. repeat split; auto.
    apply search_Found_iff. exists before, after. auto.
Qed.

(** X6.  [command.Parse()] is called at most once per message: not at all
    when the body is not a command, when no command has the captured
    trigger, or when the loop over the commands runs into a nil entry;
    otherwise once, on the command the loop stops at. *)
Theorem process_parses_first_match (input : Message) :
  (MatchString commandRegexp (Body input) = false ->
     processMessageCommand commands Parse input
     = (Answered None, snd (processMessageCommand commands Parse input))
     /\ parsings (snd (processMessageCommand commands Parse input)) = [])
  /\ (forall cmd,
        FindStringSubmatch commandRegexp (Body input) = [Body input; cmd] ->
        parsings (snd (processMessageCommand commands Parse input))
        = match lookup commands cmd with
          | Found command => [command]
          | NotFound | NilEntry => []
          end).
Proof.
  split.
  - rewrite MatchString_find.
    destruct (find_command (Body input)) eqn:H; [| discriminate].
    intros _. rewrite (process_not_command input H). split; reflexivity.
  - intros cmd H. cbn [FindStringSubmatch commandRegexp] in H.
    rewrite (process_command input cmd H). cbv zeta.
    destruct (lookup commands cmd) as [command | |]; try reflexivity.
    destruct (Parse command) as [e | r [err |]]; reflexivity.
Qed.


(** X8.  An answer of the bot is not itself a command: a message whose body
    is the body of an answer, bare or between [<p>] and [</p>], gets no
    answer and starts no rendering. *)
Theorem answer_is_not_a_command (input output m : Message) :
  fst (processMessageCommand commands Parse input) = Answered (Some output) ->
  Body m = Body output \/ Body m = "<p>" ++ Body output ++ "</p>" ->
  fst (processMessageCommand commands Parse m) = Answered None
  /\ parsings (snd (processMessageCommand commands Parse m)) = [].
Proof.
  intros Hout Hm. apply answered_spec in Hout.
  destruct Hout as (w & command & r & _ & _ & _ & _ & _ & ->).
  assert (H : find_command (Body m) = []).
  { destruct Hm as [-> | ->]; reflexivity. }
  rewrite (process_not_command m H). split; reflexivity.
Qed.

End Process.

Lemma process_answers_iff_witness :
  let commands := [Some (mkCommand "!uptime" "Live for {{ uptime }}")] in
  let Parse := fun _ : Command => Returns "Live for 1h2m5s" None in
  let ask := mkMessage "alice" "<p>!uptime</p>" "1" CHAT true zeroTime in
  fst (processMessageCommand commands Parse ask)
  = Answered (Some (mkMessage "Bot" "@alice Live for 1h2m5s" "" "CHAT" false
                      zeroTime)).
Proof.
  intros commands Parse ask.
  apply (proj2 (process_answers_iff commands Parse ask _)).
  exists "uptime", [], (mkCommand "!uptime" "Live for {{ uptime }}"), [],
    "Live for 1h2m5s".
  repeat split; [discriminate | constructor].
Defined.

Lemma process_parses_first_match_witness :
  let commands :=
    [Some (mkCommand "!discord" "Join us");
     Some (mkCommand "!uptime" "Live for {{ uptime }}");
     None; Some (mkCommand "!uptime" "never used")] in
  let Parse := fun c : Command => Returns (Template c) None in
  let ask := mkMessage "alice" "<p>!uptime</p>" "1" CHAT true zeroTime in
  let talk := mkMessage "bob" "hello" "2" CHAT true zeroTime in
  parsings (snd (processMessageCommand commands Parse talk)) = []
  /\ parsings (snd (processMessageCommand commands Parse ask))
     = [mkCommand "!uptime" "Live for {{ uptime }}"].
Proof.
  intros commands Parse ask talk. split.
  - apply (proj1 (process_parses_first_match commands Parse talk)).
    reflexivity.
  - apply (proj2 (process_parses_first_match commands Parse ask) "!uptime").
    reflexivity.
Defined.


Lemma answer_is_not_a_command_witness :
  let commands := [Some (mkCommand "!echo" "<p>!echo</p>")] in
  let Parse := fun c : Command => Returns (Template c) None in
  let ask := mkMessage "alice" "<p>!echo</p>" "1" CHAT true zeroTime in
  let back := mkMessage "Bot" "<p>@alice <p>!echo</p></p>" "2" CHAT true zeroTime in
  fst (processMessageCommand commands Parse back) = Answered None
  /\ parsings (snd (processMessageCommand commands Parse back)) = [].
Proof.
  intros commands Parse ask back.
  apply (answer_is_not_a_command commands Parse ask
           (mkMessage "Bot" "@alice <p>!echo</p>" "" CHAT false zeroTime) back).
  - reflexivity.
  - right. reflexivity.
Defined.

End MainFacts.

Module ProgramFacts.
Import Go Wire Chat Commands Regexp Template Observe Main.
Local Open Scope io_scope.

(** ** The write loop of the program *)

Lemma logged_logs (l : list Entry) (t : list Event) :
  logged (map Log l ++ t) = (l ++ logged t)%list.
Proof.
  induction l as [| e l IH]; [reflexivity |]. cbn [map app logged].
  rewrite IH. reflexivity.
Qed.

Lemma panics_logs (l : list Entry) (t : list Event) :
  panics (map Log l ++ t) = panics t.
Proof.
  induction l as [| e l IH]; [reflexivity | exact IH].
Qed.

Lemma panics_task (job : Job) (m : Message) (w : option error) :
  panics (task job m w)
  = match fst (job m) with Panicked => true | Answered _ => false end.
Proof.
  unfold task. cbn [app panics]. rewrite panics_logs.
  destruct (fst (job m)) as [[output |] |]; try reflexivity.
  destruct w; reflexivity.
Qed.

(** For an executor that neither logs nor panics the loop is the one of the
    service. *)
Lemma serve_pure (Conn : Type) (c : ChatService Conn) (f : ProcessMessageFunc)
    (turns : list Turn) :
  jobFunc Conn c = Some f ->
  serve (pure_job f) turns = trace (listenWrite Conn c turns).
Proof.
  intros Hf. induction turns as [| t rest IH]; [reflexivity |].
  rewrite ChatFacts.trace_listenWrite_cons. cbn [serve]. rewrite IH.
  destruct t as [[ | m | input] w]; unfold serveStep; cbn [selected written fst snd].
  - reflexivity.
  - destruct (ChatFacts.writeStep_ping Conn c m w) as [-> ->].
    destruct w; reflexivity.
  - destruct (ChatFacts.writeStep_chat Conn c input w) as [-> ->].
    rewrite (ChatFacts.chatTask_trace Conn c f input w Hf).
    unfold task, pure_job. cbn [fst snd map app].
    destruct (f input) as [output |]; [| reflexivity].
    destruct w; reflexivity.
Qed.

(** X20.  A chat message costs the write loop one turn in which it only
    starts a goroutine.  The goroutine logs what the call of the executor
    logs and, after that, one error line with the body and the type of the
    answer exactly when there is an answer and writing it fails; it panics
    exactly when the call of the executor does. *)
Theorem reply_failure_logged_in_goroutine (job : Job) (input : Message)
    (w : option error) (rest : list Turn) :
  serve job (mkTurn (FromChat input) w :: rest)
  = Go (task job input w) :: serve job rest
  /\ logged (task job input w)
     = (snd (job input)
          ++ match fst (job input), w with
             | Answered (Some output), Some e =>
                 [mkEntry ErrorLevel
                    [("body", Body output); ("type", Type_ output)]
                    (Println [ArgError e])]
             | _, _ => []
             end)%list
  /\ (panics (task job input w) = true <-> fst (job input) = Panicked).
Proof.
  split; [reflexivity |]. split.
  - unfold task. cbn [app logged]. rewrite logged_logs. f_equal.
    destruct (fst (job input)) as [[output |] |]; try reflexivity.
    destruct w; reflexivity.
  - rewrite panics_task. destruct (fst (job input)); split; try discriminate;
      reflexivity.
Qed.




Section Program.

Variable Conn : Type.
Variable ReadFile : string -> string + error.
Variable Unmarshal : string -> commandFile + error.
Variable url_Parse : string -> URL + error.
Variable dialer : URL -> Conn + error.
Variable Parse : Command -> Parsed.
Variable reads : list ReadResult.
Variable answers : list (option error).

(** What [NewChatService] does with the configuration of [main]: the three
    fields it sets are never missing, so only the URL and the dialer can
    refuse. *)
Lemma connect_of_main (commands : list (option Command)) :
  NewChatService Conn url_Parse dialer
    (mkConfig "wss" "stream.skynewz.dev" "/entry"
       (Some (executor commands Parse)))
  = match url_Parse "wss://stream.skynewz.dev/entry" with
    | inr cause =>
        ((None, Some (Errorf "invalid websocket url: %v" cause)), [])
    | inl _ =>
        match dialer target with
        | inr err => ((None, Some err), [connecting; handshake])
        | inl c =>
            ((Some (mkChatService Conn c make_chan make_chan
                      (Some (executor commands Parse)) make_chan),
              None),
             [connecting; handshake])
        end
    end.
Proof.
  unfold NewChatService, validate. cbn [Scheme Host Path CommandExecutorFunc].
  change (("wss" =? "")%string) with false.
  change (("stream.skynewz.dev" =? "")%string) with false. cbv iota.
  change ("wss" ++ "://" ++ "stream.skynewz.dev" ++ "/entry")
    with "wss://stream.skynewz.dev/entry".
  destruct (url_Parse "wss://stream.skynewz.dev/entry") as [u | cause];
    [| reflexivity].
  fold target. destruct (dialer target) as [c | err]; reflexivity.
Qed.

(** X10.  Without its commands [main] does not connect: when the file
    cannot be read or does not parse, the process exits with status 1, the
    dialer is not called and no goroutine is started. *)
Theorem main_needs_commands (file : string) (quit : Z)
    (written : option error) (now : Z) (ended : Z) (pick : bool) :
  (forall commands,
      ReadCommandsFromFile ReadFile Unmarshal file
      <> Commands.Returns (commands, None)) ->
  status (value (main Conn ReadFile Unmarshal url_Parse dialer Parse reads answers
            file quit written now ended pick)) = Some 1
  /\ dial_calls (trace (main Conn ReadFile Unmarshal url_Parse dialer Parse reads answers
            file quit written now ended pick)) = 0%nat
  /\ spawned (trace (main Conn ReadFile Unmarshal url_Parse dialer Parse reads answers
            file quit written now ended pick)) = [].
Proof.
  intros Hload. unfold main.
  destruct (ReadCommandsFromFile ReadFile Unmarshal file)
    as [[commands [err |]] | st format arg] eqn:Hr.
  - repeat split.
  - exfalso. apply (Hload commands). reflexivity.
  - repeat split.
Qed.

(** What [main] does once the service is there. *)
Lemma main_connected (file : string) (commands : list (option Command))
    (u : URL) (c : Conn) (quit : Z) (written : option error) (now : Z)
    (ended : Z) (pick : bool) :
  ReadCommandsFromFile ReadFile Unmarshal file = Commands.Returns (commands, None) ->
  url_Parse "wss://stream.skynewz.dev/entry" = inl u ->
  dialer target = inl c ->
  let service :=
    mkChatService Conn c make_chan make_chan
      (Some (executor commands Parse)) make_chan in
  let job := command_job commands Parse in
  (main Conn ReadFile Unmarshal url_Parse dialer Parse reads answers
            file quit written now ended pick)
  = bind (bind (ret tt) (fun _ => (tt, [connecting; handshake])))
      (fun _ =>
         bind (Listen job reads answers)
           (fun _ =>
              if crashes job reads answers then ret Crashed
              else
                bind (Close Conn service written now
                        (if finishes reads then Some ended else None)
                        (WithTimeout quit (Second * 10)) pick)
                  (fun e =>
                     match e with
                     | Chat.Returns (Some err) => fatalln err
                     | Chat.Returns None => ret Return
                     | Blocked => ret Never
                     end))).
Proof.
  intros Hload Hurl Hdial service job. subst service job. unfold main.
  rewrite Hload, (connect_of_main commands), Hurl, Hdial. reflexivity.
Qed.

(** X11.  With its commands loaded and a URL that parses, [main] calls the
    dialer exactly once, for [wss://stream.skynewz.dev/entry] with the origin
    [http://localhost]; if the dialer refuses, the process exits with status
    1 on that error, and neither loop is started nor a close frame
    written. *)
Theorem main_dials_once (file : string) (commands : list (option Command))
    (u : URL) (quit : Z) (written : option error) (now : Z) (ended : Z)
    (pick : bool) :
  ReadCommandsFromFile ReadFile Unmarshal file = Commands.Returns (commands, None) ->
  url_Parse "wss://stream.skynewz.dev/entry" = inl u ->
  let t := trace (main Conn ReadFile Unmarshal url_Parse dialer Parse reads answers
            file quit written now ended pick) in
  filter is_dial t = [handshake]
  /\ (forall err,
        dialer target = inr err ->
        value (main Conn ReadFile Unmarshal url_Parse dialer Parse reads answers
            file quit written now ended pick) = Fatalln err
        /\ t = [connecting; handshake;
                Log (mkEntry FatalLevel [] (Println [ArgError err]))]).
Proof.
  intros Hload Hurl t. subst t.
  destruct (dialer target) as [c | err] eqn:Hd.
  - rewrite (main_connected file commands u c quit written now ended pick
               Hload Hurl Hd).
    split; [| discriminate].
    rewrite !ChatFacts.trace_bind. unfold Listen.
    rewrite !ChatFacts.trace_bind, !filter_app.
    cbn [filter is_dial emit ret trace value fst snd app].
    destruct (crashes _ reads answers); [reflexivity |].
    unfold Close. rewrite !ChatFacts.trace_bind.
    cbn [filter is_dial emit ret trace value fst snd app].
    destruct written as [e |]; cbn [trace snd filter app is_dial].
    + rewrite ?ChatFacts.value_bind. reflexivity.
    + rewrite ?ChatFacts.trace_bind, ?ChatFacts.value_bind.
      destruct (select_done_ctx now _ (WithTimeout quit (Second * 10)) pick)
        as [[ | ] | ]; reflexivity.
  - unfold main. rewrite Hload.
    rewrite !ChatFacts.trace_bind, !ChatFacts.value_bind.
    rewrite (connect_of_main commands), Hurl, Hd.
    split; [reflexivity |].
    intros err' H. inversion H; subst. split; reflexivity.
Qed.



End Program.

(** A command file that is missing. *)
Lemma main_needs_commands_witness :
  let ReadFile := fun _ : string =>
    inr (errorString "open commands.yml: no such file or directory")
    : string + error in
  let Unmarshal := fun _ : string => inl (mkCommandFile []) : commandFile + error in
  let url_Parse := fun _ : string => inl target : URL + error in
  let dialer := fun _ : URL => inl tt : unit + error in
  let Parse := fun _ : Command => Returns "" None in
  let m := main unit ReadFile Unmarshal url_Parse dialer Parse [] []
             "commands.yml" 0 None 0 0 true in
  status (value m) = Some 1 /\ dial_calls (trace m) = 0%nat
  /\ spawned (trace m) = [].
Proof.
  intros ReadFile Unmarshal url_Parse dialer Parse m.
  apply (main_needs_commands unit ReadFile Unmarshal url_Parse dialer Parse [] []
           "commands.yml" 0 None 0 0 true).
  intros commands. discriminate.
Defined.

(** A server that refuses the handshake. *)
Lemma main_dials_once_witness :
  let ReadFile := fun _ : string => inl "commands: []" : string + error in
  let Unmarshal := fun _ : string => inl (mkCommandFile []) : commandFile + error in
  let url_Parse := fun _ : string => inl target : URL + error in
  let dialer := fun _ : URL =>
    inr (errorString "websocket: bad handshake") : unit + error in
  let Parse := fun _ : Command => Returns "" None in
  let m := main unit ReadFile Unmarshal url_Parse dialer Parse [] []
             "commands.yml" 0 None 0 0 true in
  filter is_dial (trace m) = [handshake]
  /\ value m = Fatalln (errorString "websocket: bad handshake").
Proof.
  intros ReadFile Unmarshal url_Parse dialer Parse m.
  destruct (main_dials_once unit ReadFile Unmarshal url_Parse dialer Parse [] []
              "commands.yml" [] target 0 None 0 0 true eq_refl eq_refl)
    as [Hd Hf].
  split; [exact Hd |].
  apply (Hf (errorString "websocket: bad handshake") eq_refl).
Defined.


End ProgramFacts.
